(** * Resource and cache management fragments of the TypeScript handbook

    Shallow embedding of the classes [LRUCache], [Cache], [ResourcePool],
    [AsyncOperationManager] and [NetworkOptimizer] of
    [07-decorators.md] and of the function [retryOperation] of
    [08-error-handling.md], followed by the properties established about
    them.  Part III adds [BatchProcessor], [EventEmitterWithCleanup],
    [WorkerPool], [PerformanceMonitor], [Memoize] and [processItems] of
    [07-decorators.md].

    Conventions.
    - A JavaScript [number] that counts or measures time is a [Z].
    - A JavaScript [Map] whose iteration order matters is an insertion
      ordered association list ([JsMap]); a [Map] that is only looked up
      is a [gmap]; a [Set] is a [gset]; an array is a [list] whose last
      element is the one [push] adds and [pop] removes.
    - A value of type [V | undefined] is an [option V], [None] being
      [undefined].
    - Code supplied by the caller (a factory, a reset hook, an operation,
      the network) acts on an abstract world [W] that is threaded through
      every call; a call either returns ([Ok]) or throws ([Throw]). *)

From Stdlib Require Import ZArith Lia.
From stdpp Require Import base option list gmap sets strings.
From Equations Require Import Equations.

Local Open Scope Z_scope.

(** ** Part I: the model *)

(** Completion of a call: a returned value or a thrown one. *)
Inductive result (E A : Type) : Type :=
| Ok (a : A)
| Throw (e : E).
Arguments Ok {E A} a.
Arguments Throw {E A} e.

(** *** The built-in [Map], with its iteration order *)

Module JsMap.
Section JsMap.
Context {K V : Type} `{EqDecision K}.

(** [Map.prototype.get]. *)
Fixpoint get (key : K) (m : list (K * V)) : option V :=
  match m with
  | [] => None
  | (k, v) :: rest => if decide (k = key) then Some v else get key rest
  end.

(** Overwriting the value of a key that is present: its position in the
    iteration order is kept. *)
Fixpoint replace (key : K) (value : V) (m : list (K * V)) : list (K * V) :=
  match m with
  | [] => []
  | (k, v) :: rest =>
      if decide (k = key) then (k, value) :: rest
      else (k, v) :: replace key value rest
  end.

(** [Map.prototype.set]: a new key goes to the end of the order. *)
Definition set (key : K) (value : V) (m : list (K * V)) : list (K * V) :=
  match get key m with
  | Some _ => replace key value m
  | None => m ++ [(key, value)]
  end.

(** [Map.prototype.delete]. *)
Fixpoint delete (key : K) (m : list (K * V)) : list (K * V) :=
  match m with
  | [] => []
  | (k, v) :: rest =>
      if decide (k = key) then rest else (k, v) :: delete key rest
  end.

(** [Map.prototype.keys], in iteration order. *)
Definition keys (m : list (K * V)) : list K := m.*1.

(** [Map.prototype.size]. *)
Definition size (m : list (K * V)) : Z := Z.of_nat (length m).

(** [m.keys().next().value]: [None] is the [undefined] an exhausted
    iterator yields. *)
Definition first_key (m : list (K * V)) : option K := head (keys m).
End JsMap.
Arguments keys : simpl never.
Arguments size : simpl never.
End JsMap.

(** *** [class LRUCache<K, V>] *)

Module LRUCache.
Section LRUCache.
Context {K V : Type} `{EqDecision K}.

Record t : Type := mk {
  cache : list (K * option V);
  maxSize : Z
}.

Definition constructor (maxSize : Z) : t :=
  {| cache := []; maxSize := maxSize |}.

(** [get(key)]: a value that is not [undefined] is moved to the end of
    the order by deleting and re-inserting its key. *)
Definition get (key : K) (c : t) : option V * t :=
  match JsMap.get key (cache c) with
  | Some (Some value) =>
      (Some value,
       {| cache := JsMap.set key (Some value) (JsMap.delete key (cache c));
          maxSize := maxSize c |})
  | Some None | None => (None, c)
  end.

(** The [if] of [set]: with [size >= maxSize] the first key of the
    iteration order is deleted; on an empty map that key is [undefined]
    and nothing is deleted. *)
Definition evict (c : t) : list (K * option V) :=
  if decide (maxSize c <= JsMap.size (cache c)) then
    match JsMap.first_key (cache c) with
    | Some firstKey => JsMap.delete firstKey (cache c)
    | None => cache c
    end
  else cache c.

(** [set(key, value)]. *)
Definition set (key : K) (value : option V) (c : t) : t :=
  {| cache := JsMap.set key value (evict c); maxSize := maxSize c |}.

(** Calls made by a client, and the cache after each one of a sequence. *)
Inductive call : Type :=
| Get (key : K)
| Set_ (key : K) (value : option V).

Definition call_key (op : call) : K :=
  match op with Get key => key | Set_ key _ => key end.

Definition do_call (op : call) (c : t) : t :=
  match op with
  | Get key => (get key c).2
  | Set_ key value => set key value c
  end.

Definition run (ops : list call) (c : t) : t :=
  foldl (fun c op => do_call op c) c ops.

Fixpoint states (ops : list call) (c : t) : list t :=
  match ops with
  | [] => [c]
  | op :: rest => c :: states rest (do_call op c)
  end.

(** A [Map] holds a key once. *)
Definition wf (c : t) : Prop := NoDup (JsMap.keys (cache c)).

(** [j] comes before [k] in an iteration order: it is deleted by an
    eviction before [k] is. *)
Definition before (j k : K) (l : list K) : Prop :=
  exists l1 l2 l3, l = l1 ++ j :: l2 ++ k :: l3.

(** The key whose entry was used last. *)
Definition most_recent (c : t) : option K := last (JsMap.keys (cache c)).

(** [j], as long as it is cached, stands before [k]. *)
Definition ahead (j k : K) (c : t) : Prop :=
  wf c
  /\ (j ∈ JsMap.keys (cache c) -> before j k (JsMap.keys (cache c))).
End LRUCache.
Arguments t : clear implicits.
Arguments call : clear implicits.
End LRUCache.

(** *** [class Cache<K, V>]: entries with a time to live *)

Module Cache.
Section Cache.
Context {K V : Type} `{Countable K}.

Record entry : Type := mk_entry {
  value : V;
  expiry : Z
}.

Record t : Type := mk {
  data : gmap K entry
}.

Definition constructor : t := {| data := ∅ |}.

(** [set(key, value, ttl)], called when [Date.now()] is [now]. *)
Definition set (key : K) (value : V) (ttl : Z) (now : Z) (c : t) : t :=
  {| data := <[key := {| value := value; expiry := now + ttl |}]> (data c) |}.

(** [get(key)], called when [Date.now()] is [now].  The stored item is
    an object, so [!item] holds only for a missing key. *)
Definition get (key : K) (now : Z) (c : t) : option V * t :=
  match data c !! key with
  | None => (None, c)
  | Some item =>
      if decide (expiry item < now) then
        (None, {| data := delete key (data c) |})
      else (Some (value item), c)
  end.
End Cache.
Arguments t : clear implicits.
Arguments t K V {_ _}.
Arguments entry : clear implicits.
End Cache.

(** *** [class ResourcePool<T>] *)

Module ResourcePool.
Section ResourcePool.
Context {T : Type} `{Countable T} {W E : Type}.

(** The two hooks given to the constructor. *)
Variable factory : W -> result E T * W.
Variable reset : T -> W -> result E unit * W.

Record t : Type := mk {
  pool : list T;
  inUse : gset T;
  initialSize : Z
}.

(** [Array.prototype.push] and [Array.prototype.pop]. *)
Definition push (item : T) (l : list T) : list T := l ++ [item].

Definition pop (l : list T) : option (T * list T) :=
  match reverse l with
  | [] => None
  | item :: rest => Some (item, reverse rest)
  end.

(** [initialize()]: the loop runs [initialSize] times. *)
Fixpoint initialize (n : nat) (s : t) (w : W) : result E t * W :=
  match n with
  | O => (Ok s, w)
  | S n' =>
      match factory w with
      | (Ok item, w') =>
          initialize n'
            {| pool := push item (pool s); inUse := inUse s;
               initialSize := initialSize s |} w'
      | (Throw e, w') => (Throw e, w')
      end
  end.

Definition constructor (initialSize : Z) (w : W) : result E t * W :=
  initialize (Z.to_nat initialSize)
    {| pool := []; inUse := ∅; initialSize := initialSize |} w.

(** [acquire()]. *)
Definition acquire (s : t) (w : W) : result E T * t * W :=
  match pop (pool s) with
  | Some (item, rest) =>
      (Ok item,
       {| pool := rest; inUse := {[item]} ∪ inUse s;
          initialSize := initialSize s |}, w)
  | None =>
      match factory w with
      | (Ok item, w') =>
          (Ok item,
           {| pool := pool s; inUse := {[item]} ∪ inUse s;
              initialSize := initialSize s |}, w')
      | (Throw e, w') => (Throw e, s, w')
      end
  end.

(** [release(item)]. *)
Definition release (item : T) (s : t) (w : W) : result E unit * t * W :=
  if decide (item ∈ inUse s) then
    let inUse' := inUse s ∖ {[item]} in
    match reset item w with
    | (Ok _, w') =>
        (Ok (),
         {| pool := push item (pool s); inUse := inUse';
            initialSize := initialSize s |}, w')
    | (Throw e, w') =>
        (Throw e,
         {| pool := pool s; inUse := inUse';
            initialSize := initialSize s |}, w')
    end
  else (Ok (), s, w).
End ResourcePool.
Arguments t : clear implicits.
Arguments t T {_ _}.
End ResourcePool.

(** *** [retryOperation] of the error handling chapter *)

Module Retry.
Section Retry.
Context {W E T : Type}.

(** [operation()] awaited once: it returns or throws, and changes the
    world. *)
Variable operation : W -> result E T * W.

(** [retryOperation(operation, retries)]: the recursive call is made
    with [retries - 1] while [retries > 0]. *)
Equations? retryOperation (retries : Z) (w : W) : result E T * W
  by wf (Z.to_nat retries) lt :=
  retryOperation retries w with operation w => {
    | (Ok value, w') := (Ok value, w');
    | (Throw error, w') with decide (0 < retries) => {
        | left _ := retryOperation (retries - 1) w';
        | right _ := (Throw error, w') } }.
Proof. lia. Qed.
End Retry.
End Retry.

(** *** [class NetworkOptimizer] *)

Module NetworkOptimizer.
Section NetworkOptimizer.
Context {W E Data Response : Type}.

(** The environment of [fetch]: the clock, the global [fetch] awaited
    under an abort timer of [timeout] milliseconds, the response object,
    the error built for a response that is not [ok], and the promise
    resolved by [setTimeout] after the given number of milliseconds. *)
Variable Date_now : W -> Z.
Variable global_fetch : string -> Z -> W -> result E Response * W.
Variable response_ok : Response -> bool.
Variable response_status : Response -> Z.
Variable response_json : Response -> W -> result E Data * W.
Variable http_error : Z -> E.
Variable sleep : Z -> W -> W.

Record cached : Type := mk_cached {
  data : Data;
  timestamp : Z;
  ttl : Z
}.

Record options : Type := mk_options {
  opt_ttl : option Z;
  opt_forceRefresh : option bool;
  opt_retries : option Z;
  opt_timeout : option Z
}.

(** The body of the [try] block. *)
Definition attempt (url : string) (ttl timeout : Z)
    (cache : gmap string cached) (w : W)
  : result E Data * gmap string cached * W :=
  match global_fetch url timeout w with
  | (Throw error, w1) => (Throw error, cache, w1)
  | (Ok response, w1) =>
      if negb (response_ok response) then
        (Throw (http_error (response_status response)), cache, w1)
      else
        match response_json response w1 with
        | (Throw error, w2) => (Throw error, cache, w2)
        | (Ok data, w2) =>
            (Ok data,
             <[url := {| data := data; timestamp := Date_now w2;
                         ttl := ttl |}]> cache,
             w2)
        end
  end.

(** Delay requested from [setTimeout] in the [catch] block of iteration
    [i]: [Math.pow(2, i) * 1000]. *)
Definition backoff (i : Z) : Z := 2 ^ i * 1000.

(** The [for] loop with [n] iterations left, at index [i].  What is
    thrown after the loop is [lastError], which is still [null]
    ([None]) when the loop body never ran. *)
Fixpoint retry_loop (n : nat) (i : Z) (lastError : option E)
    (url : string) (ttl timeout : Z) (cache : gmap string cached) (w : W)
  : result (option E) Data * gmap string cached * W :=
  match n with
  | O => (Throw lastError, cache, w)
  | S n' =>
      match attempt url ttl timeout cache w with
      | (Ok data, cache', w') => (Ok data, cache', w')
      | (Throw error, cache', w') =>
          retry_loop n' (i + 1) (Some error) url ttl timeout cache'
            (sleep (backoff i) w')
      end
  end.

(** [fetch(url, options)]. *)
Definition fetch (url : string) (opts : options)
    (cache : gmap string cached) (w : W)
  : result (option E) Data * gmap string cached * W :=
  let ttl := default (5 * 60 * 1000) (opt_ttl opts) in
  let forceRefresh := default false (opt_forceRefresh opts) in
  let retries := default 3 (opt_retries opts) in
  let timeout := default 5000 (opt_timeout opts) in
  let miss :=
    retry_loop (Z.to_nat retries) 0 None url ttl timeout cache w in
  if forceRefresh then miss
  else
    match cache !! url with
    | Some hit =>
        if decide (Date_now w - timestamp hit < NetworkOptimizer.ttl hit)
        then (Ok (data hit), cache, w)
        else miss
    | None => miss
    end.
End NetworkOptimizer.
Arguments cached : clear implicits.
End NetworkOptimizer.

(** *** [class AsyncOperationManager] *)

Module AsyncOperationManager.
Section AsyncOperationManager.
Context {Op : Type} `{EqDecision Op}.

(** Whether calling an operation throws before it returns a promise. *)
Variable throws_at_call : Op -> bool.

(** The fields of the object, and the operations whose promise an
    activation of [processQueue] is suspended on at
    [await operation()]. *)
Record t : Type := mk {
  queue : list Op;
  isProcessing : bool;
  concurrentLimit : Z;
  activeCount : Z;
  awaiting : list Op
}.

Definition constructor (concurrentLimit : Z) : t :=
  {| queue := []; isProcessing := false;
     concurrentLimit := concurrentLimit; activeCount := 0;
     awaiting := [] |}.

(** Removal of one occurrence. *)
Fixpoint remove_one (op : Op) (l : list Op) : list Op :=
  match l with
  | [] => []
  | x :: rest => if decide (x = op) then rest else x :: remove_one op rest
  end.

(** One run of [processQueue] from the test of its [while] up to the
    next suspension or to its end; the result carries the operations
    called on the way.  [again] is the call [this.processQueue()] made
    after the loop.
    - The test holds: the operation is shifted, counted and called.  If
      the call throws, [finally] uncounts it and the exception leaves
      [processQueue] with [isProcessing] still set; otherwise the
      activation is suspended.
    - The test fails: [isProcessing] is cleared and, with a queue that
      is not empty, [processQueue] is called again. *)
Definition dispatch (again : t -> option (t * list Op)) (s : t)
  : option (t * list Op) :=
  match queue s with
  | operation :: rest =>
      if decide (activeCount s < concurrentLimit s) then
        if throws_at_call operation then
          Some ({| queue := rest; isProcessing := isProcessing s;
                   concurrentLimit := concurrentLimit s;
                   activeCount := activeCount s + 1 - 1;
                   awaiting := awaiting s |}, [operation])
        else
          Some ({| queue := rest; isProcessing := isProcessing s;
                   concurrentLimit := concurrentLimit s;
                   activeCount := activeCount s + 1;
                   awaiting := awaiting s ++ [operation] |}, [operation])
      else
        again {| queue := queue s; isProcessing := false;
                 concurrentLimit := concurrentLimit s;
                 activeCount := activeCount s; awaiting := awaiting s |}
  | [] =>
      Some ({| queue := queue s; isProcessing := false;
               concurrentLimit := concurrentLimit s;
               activeCount := activeCount s; awaiting := awaiting s |}, [])
  end.

(** [processQueue()], with a bound on the depth of its recursion.
    [None] when the bound is reached: the run is not followed past this
    point.  In an engine the call stack overflows there and the error
    rejects the promise of the innermost call; this happens only with a
    limit of 0 or less. *)
Fixpoint processQueue (depth : nat) (s : t) : option (t * list Op) :=
  match depth with
  | O => None
  | S depth' =>
      if isProcessing s then Some (s, [])
      else
        dispatch (processQueue depth')
          {| queue := queue s; isProcessing := true;
             concurrentLimit := concurrentLimit s;
             activeCount := activeCount s; awaiting := awaiting s |}
  end.

(** What happens to a manager: a call of [add], and the settling of the
    promise of an operation that is awaited. *)
Inductive event : Type :=
| Add (operation : Op)
| Resolve (operation : Op)
| Reject (operation : Op).

(** The activation awaiting [operation] resumes: [finally] uncounts the
    operation; a rejection then leaves [processQueue], a fulfilment
    goes back to the test of the [while]. *)
Definition settle (depth : nat) (fulfilled : bool) (operation : Op) (s : t)
  : option (t * list Op) :=
  if decide (operation ∈ awaiting s) then
    let s' := {| queue := queue s; isProcessing := isProcessing s;
                 concurrentLimit := concurrentLimit s;
                 activeCount := activeCount s - 1;
                 awaiting := remove_one operation (awaiting s) |} in
    if fulfilled then dispatch (processQueue depth) s' else Some (s', [])
  else None.

(** [add(operation)]. *)
Definition add (depth : nat) (operation : Op) (s : t)
  : option (t * list Op) :=
  processQueue depth
    {| queue := queue s ++ [operation]; isProcessing := isProcessing s;
       concurrentLimit := concurrentLimit s;
       activeCount := activeCount s; awaiting := awaiting s |}.

Definition step (depth : nat) (ev : event) (s : t) : option (t * list Op) :=
  match ev with
  | Add operation => add depth operation s
  | Resolve operation => settle depth true operation s
  | Reject operation => settle depth false operation s
  end.

(** [reaches s0 evs s called]: the events [evs] lead from [s0] to [s],
    and [called] lists the operations called, in the order of the
    calls. *)
Inductive reaches (s0 : t) : list event -> t -> list Op -> Prop :=
| reaches_nil : reaches s0 [] s0 []
| reaches_snoc evs s called depth ev s' called' :
    reaches s0 evs s called ->
    step depth ev s = Some (s', called') ->
    reaches s0 (evs ++ [ev]) s' (called ++ called').

(** The operations handed to [add], in the order of the calls. *)
Definition added (evs : list event) : list Op :=
  omap (fun ev => match ev with Add operation => Some operation | _ => None end)
       evs.

(** The same, as a function: the events are taken one after the other. *)
Fixpoint run (depth : nat) (evs : list event) (s : t) : option (t * list Op) :=
  match evs with
  | [] => Some (s, [])
  | ev :: rest =>
      match step depth ev s with
      | Some (s1, called1) =>
          match run depth rest s1 with
          | Some (s2, called2) => Some (s2, called1 ++ called2)
          | None => None
          end
      | None => None
      end
  end.

(** An event that can happen: a promise that settles is one that is
    awaited. *)
Definition enabled (ev : event) (s : t) : Prop :=
  match ev with
  | Add _ => True
  | Resolve operation | Reject operation => operation ∈ awaiting s
  end.

(** What holds of a manager at every moment: [activeCount] counts the
    operations awaited, there is at most one, and while there is one
    [isProcessing] is set and the limit is positive. *)
Definition invariant (s : t) : Prop :=
  activeCount s = Z.of_nat (length (awaiting s))
  /\ (length (awaiting s) <= 1)%nat
  /\ (awaiting s ≠ [] -> isProcessing s = true /\ 0 < concurrentLimit s).

(** No operation is awaited. *)
Definition idle (s : t) : Prop := awaiting s = [] /\ activeCount s = 0.

(** What a run of [processQueue] from [s] to [s'] keeps or establishes:
    the invariant, the limit, and the order of the queue, from whose
    front the operations [called] were taken; at most one operation is
    called, and no other one is awaited then. *)
Definition post (s s' : t) (called : list Op) : Prop :=
  invariant s'
  /\ concurrentLimit s' = concurrentLimit s
  /\ called ++ queue s' = queue s
  /\ (called = []
      \/ exists operation,
           called = [operation]
           /\ (awaiting s' = [operation] \/ awaiting s' = [])).
End AsyncOperationManager.
Arguments t : clear implicits.
Arguments event : clear implicits.
End AsyncOperationManager.

(** *** Concrete callers, for the examples *)

(** An [Error] object: its [name] and its [message]. *)
Record JsError : Type := mk_error {
  name : string;
  message : string
}.

Module PoolExample.
(** Items are numbered; the world is the number of the next item the
    factory builds; the reset hook does nothing. *)
Definition factory (w : nat) : result JsError nat * nat := (Ok w, S w).
Definition reset (item : nat) (w : nat) : result JsError unit * nat :=
  (Ok (), w).

(** A pool built with [initialSize = 1], before and after one and two
    calls of [acquire]. *)
Definition fresh : ResourcePool.t nat :=
  {| ResourcePool.pool := [0%nat]; ResourcePool.inUse := ∅;
     ResourcePool.initialSize := 1 |}.
Definition one_out : ResourcePool.t nat :=
  {| ResourcePool.pool := []; ResourcePool.inUse := {[0%nat]} ∪ ∅;
     ResourcePool.initialSize := 1 |}.
Definition two_out : ResourcePool.t nat :=
  {| ResourcePool.pool := [];
     ResourcePool.inUse := {[1%nat]} ∪ ({[0%nat]} ∪ ∅);
     ResourcePool.initialSize := 1 |}.
End PoolExample.

Module RetryExample.
(** An operation that throws the same [Error] at every call; the world
    counts the calls. *)
Definition boom : JsError := {| name := "Error"; message := "boom" |}.
Definition failing (w : nat) : result JsError Z * nat := (Throw boom, S w).
End RetryExample.

Module NetExample.
(** A world that records the calls of the global [fetch] and the delays
    given to [setTimeout], with a network that is down. *)
Record world : Type := mk_world {
  calls : nat;
  slept : list Z;
  clock : Z
}.

Definition network_down : JsError :=
  {| name := "TypeError"; message := "fetch failed" |}.

Definition Date_now (w : world) : Z := clock w.

Definition global_fetch (url : string) (timeout : Z) (w : world)
  : result JsError unit * world :=
  (Throw network_down,
   {| calls := S (calls w); slept := slept w; clock := clock w + 1 |}).

Definition response_ok (r : unit) : bool := true.
Definition response_status (r : unit) : Z := 200.

Definition response_json (r : unit) (w : world) : result JsError string * world :=
  (Ok "{}", w).

Definition http_error (status : Z) : JsError :=
  {| name := "Error"; message := "HTTP error!" |}.

Definition sleep (ms : Z) (w : world) : world :=
  {| calls := calls w; slept := slept w ++ [ms]; clock := clock w + ms |}.

Definition start : world := {| calls := 0; slept := []; clock := 0 |}.

(** [fetch(url, { retries })] on an empty cache. *)
Definition fetch (retries : Z)
  : result (option JsError) string * gmap string (NetworkOptimizer.cached string)
    * world :=
  NetworkOptimizer.fetch Date_now global_fetch response_ok response_status
    response_json http_error sleep "https://example.org/users"
    {| NetworkOptimizer.opt_ttl := None;
       NetworkOptimizer.opt_forceRefresh := None;
       NetworkOptimizer.opt_retries := Some retries;
       NetworkOptimizer.opt_timeout := None |}
    ∅ start.
End NetExample.

(** *** The two versions of [processItems] *)

Module ProcessItems.
(** [items.filter(x => x > 0).map(x => x * 2).filter(x => x < 100)]. *)
Definition processItems_chained (items : list Z) : list Z :=
  filter (fun x => x < 100) ((fun x => x * 2) <$> filter (fun x => 0 < x) items).

(** The callback given to [reduce]; [acc.push(result)] adds at the end. *)
Definition step (acc : list Z) (x : Z) : list Z :=
  if decide (0 < x) then
    let result := x * 2 in
    if decide (result < 100) then acc ++ [result] else acc
  else acc.

(** [items.reduce((acc, x) => ..., [])]. *)
Definition processItems_reduce (items : list Z) : list Z := foldl step [] items.
End ProcessItems.

(** *** [class BatchProcessor] *)

Module BatchProcessor.
Section BatchProcessor.
Context {Item : Type}.

(** The two fields of the object, and the timers of the environment:
    the handles of the timers that were set and have not fired yet, and
    the number of timers set so far, which is the next handle. *)
Record t : Type := mk {
  batch : list Item;
  timeout : option nat;
  pending : list nat;
  timers : nat
}.

Definition constructor : t :=
  {| batch := []; timeout := None; pending := []; timers := 0 |}.

(** [scheduleProcess()]: a timer is set when [timeout] holds none. *)
Definition scheduleProcess (s : t) : t :=
  match timeout s with
  | Some _ => s
  | None =>
      {| batch := batch s; timeout := Some (timers s);
         pending := pending s ++ [timers s]; timers := S (timers s) |}
  end.

(** [add(item)]. *)
Definition add (item : Item) (s : t) : t :=
  scheduleProcess
    {| batch := batch s ++ [item]; timeout := timeout s;
       pending := pending s; timers := timers s |}.

(** [processBatch()] up to its [await]: the result carries the items
    given to [process]. *)
Definition processBatch (s : t) : t * list Item :=
  ({| batch := []; timeout := None; pending := pending s;
      timers := timers s |}, batch s).

(** A call of [add], and a timer that fires and runs its callback. *)
Inductive event : Type :=
| Add (item : Item)
| Fire (timer : nat).

Definition step (ev : event) (s : t) : option (t * list (list Item)) :=
  match ev with
  | Add item => Some (add item s, [])
  | Fire timer =>
      if decide (timer ∈ pending s) then
        let '(s', items) :=
          processBatch
            {| batch := batch s; timeout := timeout s;
               pending := filter (fun t => t ≠ timer) (pending s);
               timers := timers s |} in
        Some (s', [items])
      else None
  end.

(** [reaches evs s batches]: the events [evs] lead from a new processor
    to [s], [process] having been called with [batches], in this
    order. *)
Inductive reaches : list event -> t -> list (list Item) -> Prop :=
| reaches_nil : reaches [] constructor []
| reaches_snoc evs s batches ev s' batches' :
    reaches evs s batches ->
    step ev s = Some (s', batches') ->
    reaches (evs ++ [ev]) s' (batches ++ batches').

Definition added (evs : list event) : list Item :=
  omap (fun ev => match ev with Add item => Some item | Fire _ => None end) evs.
End BatchProcessor.
Arguments t : clear implicits.
Arguments event : clear implicits.
End BatchProcessor.

(** *** [class EventEmitterWithCleanup]: [on] and [off] *)

Module EventEmitterWithCleanup.
Section EventEmitterWithCleanup.
Context {Handler : Type} `{EqDecision Handler}.

(** [Set.prototype.add] and [Set.prototype.delete] on a set kept in
    insertion order. *)
Definition set_add (handler : Handler) (handlers : list Handler)
  : list Handler :=
  if decide (handler ∈ handlers) then handlers else handlers ++ [handler].

Definition set_delete (handler : Handler) (handlers : list Handler)
  : list Handler :=
  filter (fun h => h ≠ handler) handlers.

(** [on(event, handler)] on the map [handlers]. *)
Definition on (event : string) (handler : Handler)
    (s : gmap string (list Handler)) : gmap string (list Handler) :=
  <[event := set_add handler (default [] (s !! event))]> s.

(** [off(event, handler)]: a set that becomes empty is removed. *)
Definition off (event : string) (handler : Handler)
    (s : gmap string (list Handler)) : gmap string (list Handler) :=
  match s !! event with
  | Some handlers =>
      let handlers' := set_delete handler handlers in
      if decide (length handlers' = 0%nat) then delete event s
      else <[event := handlers']> s
  | None => s
  end.

Inductive call : Type :=
| On (event : string) (handler : Handler)
| Off (event : string) (handler : Handler).

Definition do_call (c : call) (s : gmap string (list Handler))
  : gmap string (list Handler) :=
  match c with
  | On event handler => on event handler s
  | Off event handler => off event handler s
  end.

Definition run (calls : list call) : gmap string (list Handler) :=
  foldl (fun s c => do_call c s) ∅ calls.

(** Every event of the map has a handler, and has each handler once. *)
Definition tidy (s : gmap string (list Handler)) : Prop :=
  forall event handlers,
    s !! event = Some handlers -> handlers ≠ [] /\ NoDup handlers.
End EventEmitterWithCleanup.
Arguments call : clear implicits.
End EventEmitterWithCleanup.

(** *** [class WorkerPool]: the queue of tasks

    The fields [workerScript] and [poolSize] are read by the constructor
    only, which is left out. *)

Module WorkerPool.
Section WorkerPool.
Context {Worker Task Data Err : Type}.

Record t : Type := mk {
  workers : list Worker;
  taskQueue : list Task;
  availableWorkers : list Worker
}.

(** What the pool does to its workers and to the promises of its
    tasks. *)
Inductive effect : Type :=
| PostMessage (worker : Worker) (task : Task)
| Resolved (task : Task) (data : Data)
| Rejected (task : Task) (error : Err)
| Terminated (worker : Worker).

(** The [while] of [processQueue], run at most [n] times: a worker is
    popped and is posted [taskQueue[0]], which stays in the queue. *)
Fixpoint processQueue_loop (n : nat) (s : t) : t * list effect :=
  match n with
  | O => (s, [])
  | S n' =>
      match ResourcePool.pop (availableWorkers s), taskQueue s with
      | Some (worker, rest), task :: _ =>
          let '(s', effects) :=
            processQueue_loop n'
              {| workers := workers s; taskQueue := taskQueue s;
                 availableWorkers := rest |} in
          (s', PostMessage worker task :: effects)
      | _, _ => (s, [])
      end
  end.

(** [processQueue()]: each turn of the loop pops a worker, so there are
    no more turns than available workers. *)
Definition processQueue (s : t) : t * list effect :=
  processQueue_loop (length (availableWorkers s)) s.

(** [executeTask(task)]: the executor of the promise runs at once. *)
Definition executeTask (task : Task) (s : t) : t * list effect :=
  processQueue
    {| workers := workers s; taskQueue := taskQueue s ++ [task];
       availableWorkers := availableWorkers s |}.

(** [handleWorkerMessage(worker, e)], with [data] for [e.data]. *)
Definition handleWorkerMessage (worker : Worker) (data : Data) (s : t)
  : t * list effect :=
  let '(queue, settled) :=
    match taskQueue s with
    | task :: rest => (rest, [Resolved task data])
    | [] => ([], [])
    end in
  let '(s', effects) :=
    processQueue
      {| workers := workers s; taskQueue := queue;
         availableWorkers := ResourcePool.push worker (availableWorkers s) |} in
  (s', settled ++ effects).

(** [handleWorkerError(worker, e)], with [error] for [e.error]. *)
Definition handleWorkerError (worker : Worker) (error : Err) (s : t)
  : t * list effect :=
  let '(queue, settled) :=
    match taskQueue s with
    | task :: rest => (rest, [Rejected task error])
    | [] => ([], [])
    end in
  let '(s', effects) :=
    processQueue
      {| workers := workers s; taskQueue := queue;
         availableWorkers := ResourcePool.push worker (availableWorkers s) |} in
  (s', settled ++ effects).

(** [terminate()]. *)
Definition terminate (s : t) : t * list effect :=
  ({| workers := []; taskQueue := taskQueue s; availableWorkers := [] |},
   Terminated <$> workers s).
End WorkerPool.
Arguments t : clear implicits.
Arguments effect : clear implicits.
End WorkerPool.

(** *** [class PerformanceMonitor] *)

Module PerformanceMonitor.
Section PerformanceMonitor.
Context {Num W E : Type}.

(** The numbers of the monitor and what is computed with them:
    [performance.now()], [-], [0], [+], [/], the number of a length,
    [Math.min(...xs)] and [Math.max(...xs)]. *)
Variable now : W -> Num.
Variable sub : Num -> Num -> Num.
Variable zero : Num.
Variable plus : Num -> Num -> Num.
Variable div : Num -> Num -> Num.
Variable of_length : nat -> Num.
Variable min_of : list Num -> Num.
Variable max_of : list Num -> Num.

Record stats : Type := mk_stats {
  avg : Num;
  min : Num;
  max : Num;
  count : nat
}.

(** [measure(label, fn)] on the map [metrics]: the [finally] block runs
    whether [fn] returns or throws. *)
Definition measure {T : Type} (label : string) (fn : W -> result E T * W)
    (metrics : gmap string (list Num)) (w : W)
  : result E T * gmap string (list Num) * W :=
  let start := now w in
  let '(r, w1) := fn w in
  let duration := sub (now w1) start in
  let measurements := default [] (metrics !! label) in
  (r, <[label := measurements ++ [duration]]> metrics, w1).

(** [getStats(label)]. *)
Definition getStats (label : string) (metrics : gmap string (list Num))
  : stats :=
  let measurements := default [] (metrics !! label) in
  if decide (length measurements = 0%nat) then
    {| avg := zero; min := zero; max := zero; count := 0 |}
  else
    let sum := foldl plus zero measurements in
    {| avg := div sum (of_length (length measurements));
       min := min_of measurements;
       max := max_of measurements;
       count := length measurements |}.
End PerformanceMonitor.
Arguments stats : clear implicits.
End PerformanceMonitor.

(** *** The decorator [Memoize] *)

Module Memoize.
Section Memoize.
Context {This Args R W E : Type}.

(** [JSON.stringify], which may throw, and the method that is wrapped,
    called on a receiver.  Through its receiver the method can call
    memoized methods, itself included, and these calls write to the map
    of the decorator: the method is given the map and returns it. *)
Variable stringify : Args -> result E string.
Variable original :
  This -> Args -> gmap string R -> W -> result E R * gmap string R * W.

(** The function put in [descriptor.value], on the map [cache] of the
    decorator: [cache.set(key, result)] is made on the map as the method
    has left it, whatever it holds for [key]. *)
Definition memoized (this : This) (args : Args) (cache : gmap string R)
    (w : W) : result E R * gmap string R * W :=
  match stringify args with
  | Throw e => (Throw e, cache, w)
  | Ok key =>
      match cache !! key with
      | Some result => (Ok result, cache, w)
      | None =>
          match original this args cache w with
          | (Ok result, cache1, w') =>
              (Ok result, <[key := result]> cache1, w')
          | (Throw e, cache1, w') => (Throw e, cache1, w')
          end
      end
  end.
End Memoize.
End Memoize.

(** *** Further predicates and callers *)

(** An item of a pool is idle once, and is not both idle and in use. *)
Definition pool_consistent {T : Type} `{Countable T} (s : ResourcePool.t T)
  : Prop :=
  NoDup (ResourcePool.pool s)
  /\ forall item, item ∈ ResourcePool.pool s -> item ∉ ResourcePool.inUse s.

Module FlakyExample.
(** An operation that throws at its first two calls and returns 42 from
    the third one on; the world counts the calls. *)
Definition operation (w : nat) : result JsError Z * nat :=
  if decide (w < 2)%nat then (Throw RetryExample.boom, S w) else (Ok 42, S w).
End FlakyExample.

Module NetUpExample.
(** The world of [NetExample], with a network that answers every request
    with a response that is [ok]. *)
Definition global_fetch (url : string) (timeout : Z) (w : NetExample.world)
  : result JsError unit * NetExample.world :=
  (Ok (),
   {| NetExample.calls := S (NetExample.calls w);
      NetExample.slept := NetExample.slept w;
      NetExample.clock := NetExample.clock w + 1 |}).

Definition after_request : NetExample.world :=
  {| NetExample.calls := 1; NetExample.slept := []; NetExample.clock := 1 |}.

Definition stored : gmap string (NetworkOptimizer.cached string) :=
  <["https://example.org/users" :=
      {| NetworkOptimizer.data := "{}"; NetworkOptimizer.timestamp := 1;
         NetworkOptimizer.ttl := 5 * 60 * 1000 |}]> ∅.

Definition no_options : NetworkOptimizer.options :=
  {| NetworkOptimizer.opt_ttl := None;
     NetworkOptimizer.opt_forceRefresh := None;
     NetworkOptimizer.opt_retries := None;
     NetworkOptimizer.opt_timeout := None |}.
End NetUpExample.

Module MemoizeExample.
(** A method that calls itself once through its receiver, with the same
    argument: the inner call leaves the length of the argument in the
    map under the key, and the method returns 10 more.  The world counts
    the calls; the key of an argument is the argument. *)
Definition stringify (args : string) : result JsError string := Ok args.
Definition original (this : nat) (args : string) (cache : gmap string nat)
    (w : nat) : result JsError nat * gmap string nat * nat :=
  (Ok (String.length args + 10)%nat, <[args := String.length args]> cache,
   S (S w)).
End MemoizeExample.

Module MonitorExample.
(** Integer times: the world is the clock, and [fn] takes 5 ms and
    throws. *)
Definition now (w : Z) : Z := w.
Definition fn (w : Z) : result JsError unit * Z :=
  (Throw RetryExample.boom, w + 5).
Definition min_of (xs : list Z) : Z := foldr Z.min 0 xs.
Definition max_of (xs : list Z) : Z := foldr Z.max 0 xs.
End MonitorExample.

(** *** What [fetch] asks of its environment, in order *)

Module NetTrace.
(** A call of the global [fetch], and a delay given to [setTimeout]. *)
Inductive event : Type :=
| Request (url : string)
| Wait (ms : Z).

(** [k] attempts that fail, from the index [i] of the loop on: each is a
    request, followed by the delay [Math.pow(2, j) * 1000] of its index
    [j]. *)
Definition failed_rounds (url : string) (i : Z) (k : nat) : list event :=
  concat ((fun j => [Request url; Wait (2 ^ j * 1000)]) <$> seqZ i (Z.of_nat k)).
End NetTrace.

Module NetFlakyExample.
(** A world that records the requests and the delays in order, with a
    network that is down for the first [failures] requests. *)
Record world : Type := mk_world {
  trace : list NetTrace.event;
  clock : Z;
  failures : nat
}.

Definition Date_now (w : world) : Z := clock w.

Definition global_fetch (url : string) (timeout : Z) (w : world)
  : result JsError unit * world :=
  match failures w with
  | S rest =>
      (Throw NetExample.network_down,
       {| trace := trace w ++ [NetTrace.Request url]; clock := clock w + 1;
          failures := rest |})
  | O =>
      (Ok (),
       {| trace := trace w ++ [NetTrace.Request url]; clock := clock w + 1;
          failures := O |})
  end.

Definition sleep (ms : Z) (w : world) : world :=
  {| trace := trace w ++ [NetTrace.Wait ms]; clock := clock w + ms;
     failures := failures w |}.

Definition response_json (r : unit) (w : world)
  : result JsError string * world :=
  (Ok "{}", w).

(** The network is down for two requests. *)
Definition start : world := {| trace := []; clock := 0; failures := 2 |}.

(** [fetch(url)] with the default options on an empty cache. *)
Definition fetch
  : result (option JsError) string
    * gmap string (NetworkOptimizer.cached string) * world :=
  NetworkOptimizer.fetch Date_now global_fetch NetExample.response_ok
    NetExample.response_status response_json NetExample.http_error sleep
    "https://example.org/users" NetUpExample.no_options ∅ start.
End NetFlakyExample.

(** ** Part II: properties *)

(** *** The built-in [Map] *)

Section JsMapFacts.
Context {K V : Type} `{EqDecision K}.
Implicit Types (m : list (K * V)) (key k : K) (v : V).

Lemma jsmap_keys_cons k v m : JsMap.keys ((k, v) :: m) = k :: JsMap.keys m.
Proof. reflexivity. Qed.

Lemma jsmap_keys_length m : length (JsMap.keys m) = length m.
Proof. unfold JsMap.keys. apply length_fmap. Qed.

Lemma jsmap_get_None key m : JsMap.get key m = None <-> key ∉ JsMap.keys m.
Proof.
  induction m as [|[k v] m IH]; simpl.
  - split; [intros _; apply not_elem_of_nil | done].
  - rewrite jsmap_keys_cons, not_elem_of_cons.
    destruct (decide (k = key)) as [->|Hne].
    + split; [done | intros [? _]; done].
    + rewrite IH. split; [intros ?; split; [congruence | done] | tauto].
Qed.

Lemma jsmap_get_Some key m v : JsMap.get key m = Some v -> key ∈ JsMap.keys m.
Proof.
  intros Hget. destruct (decide (key ∈ JsMap.keys m)) as [|Hn]; [done|].
  apply jsmap_get_None in Hn. congruence.
Qed.

Lemma jsmap_replace_keys key v m :
  JsMap.keys (JsMap.replace key v m) = JsMap.keys m.
Proof.
  induction m as [|[k v'] m IH]; simpl; [done|].
  destruct (decide (k = key)); rewrite !jsmap_keys_cons; [done|].
  by rewrite IH.
Qed.

Lemma jsmap_set_keys key v m :
  JsMap.keys (JsMap.set key v m)
  = if decide (key ∈ JsMap.keys m) then JsMap.keys m
    else JsMap.keys m ++ [key].
Proof.
  unfold JsMap.set. destruct (JsMap.get key m) eqn:Hget.
  - apply jsmap_get_Some in Hget. rewrite decide_True by done.
    apply jsmap_replace_keys.
  - apply jsmap_get_None in Hget. rewrite decide_False by done.
    unfold JsMap.keys. by rewrite fmap_app.
Qed.

Lemma jsmap_set_length key v m :
  (length (JsMap.set key v m) <= S (length m))%nat.
Proof.
  rewrite <- !jsmap_keys_length, jsmap_set_keys.
  case_decide; rewrite ?length_app; simpl; lia.
Qed.

Lemma jsmap_delete_length key m :
  length (JsMap.delete key m)
  = if decide (key ∈ JsMap.keys m) then pred (length m) else length m.
Proof.
  induction m as [|[k v] m IH].
  - done.
  - cbn [JsMap.delete]. rewrite jsmap_keys_cons.
    destruct (decide (k = key)) as [->|Hne].
    + destruct (decide (key ∈ key :: JsMap.keys m)) as [_|Hd]; [reflexivity|].
      exfalso. apply Hd. left.
    + cbn [length]. rewrite IH.
      destruct (decide (key ∈ JsMap.keys m)) as [Hin|Hout].
      * rewrite decide_True by (by right).
        destruct m; [by apply elem_of_nil in Hin | done].
      * rewrite decide_False; [done|].
        rewrite not_elem_of_cons. split; [congruence | done].
Qed.

Lemma filter_ne_absent key (l : list K) :
  key ∉ l -> filter (fun k => k ≠ key) l = l.
Proof.
  induction l as [|k l IH]; [done|].
  intros [Hne Hl]%not_elem_of_cons.
  rewrite filter_cons_True by congruence. by rewrite IH.
Qed.

Lemma jsmap_delete_keys key m :
  NoDup (JsMap.keys m) ->
  JsMap.keys (JsMap.delete key m) = filter (fun k => k ≠ key) (JsMap.keys m).
Proof.
  induction m as [|[k v] m IH]; simpl; [done|].
  rewrite jsmap_keys_cons. intros [Hk Hnd]%NoDup_cons.
  destruct (decide (k = key)) as [->|Hne].
  - rewrite filter_cons_False by (intros Hc; by apply Hc).
    by rewrite filter_ne_absent.
  - rewrite filter_cons_True by done. rewrite jsmap_keys_cons.
    by rewrite IH.
Qed.

Lemma jsmap_delete_first k v m : JsMap.delete k ((k, v) :: m) = m.
Proof. simpl. by rewrite decide_True. Qed.
End JsMapFacts.

(** *** [LRUCache] *)

Section LRUCacheFacts.
Context {K V : Type} `{EqDecision K}.
Implicit Types (c : LRUCache.t K V) (key k j : K) (value : option V).

(** With [size >= maxSize], what [set] deletes is the head of the
    iteration order. *)
Lemma lru_evict_full c :
  LRUCache.maxSize c <= JsMap.size (LRUCache.cache c) ->
  LRUCache.evict c = tail (LRUCache.cache c).
Proof.
  intros Hfull. unfold LRUCache.evict. rewrite decide_True by done.
  destruct (LRUCache.cache c) as [|[k v] m]; [done|].
  unfold JsMap.first_key. rewrite jsmap_keys_cons.
  cbn [head tail]. apply jsmap_delete_first.
Qed.

Lemma lru_evict_room c :
  JsMap.size (LRUCache.cache c) < LRUCache.maxSize c ->
  LRUCache.evict c = LRUCache.cache c.
Proof. intros Hroom. unfold LRUCache.evict. rewrite decide_False; [done | lia]. Qed.

Lemma lru_evict_size c :
  0 < LRUCache.maxSize c ->
  JsMap.size (LRUCache.cache c) <= LRUCache.maxSize c ->
  JsMap.size (LRUCache.evict c) < LRUCache.maxSize c.
Proof.
  intros Hpos Hle.
  destruct (decide (LRUCache.maxSize c <= JsMap.size (LRUCache.cache c)))
    as [Hfull|Hroom].
  - rewrite lru_evict_full by done. unfold JsMap.size in *.
    destruct (LRUCache.cache c); simpl in *; lia.
  - rewrite lru_evict_room by lia. lia.
Qed.

Lemma lru_set_size key value c :
  0 < LRUCache.maxSize c ->
  JsMap.size (LRUCache.cache c) <= LRUCache.maxSize c ->
  JsMap.size (LRUCache.cache (LRUCache.set key value c)) <= LRUCache.maxSize c.
Proof.
  intros Hpos Hle. pose proof (lru_evict_size c Hpos Hle) as Hev.
  cbn [LRUCache.set LRUCache.cache]. unfold JsMap.size in *.
  pose proof (jsmap_set_length key value (LRUCache.evict c)). lia.
Qed.

Lemma lru_get_size key c :
  JsMap.size (LRUCache.cache (LRUCache.get key c).2)
  <= JsMap.size (LRUCache.cache c).
Proof.
  unfold LRUCache.get.
  destruct (JsMap.get key (LRUCache.cache c)) as [[v|]|] eqn:Hget;
    cbn [snd LRUCache.cache]; [|lia..].
  apply jsmap_get_Some in Hget. unfold JsMap.size.
  pose proof (jsmap_set_length key (Some v)
                (JsMap.delete key (LRUCache.cache c))) as Hset.
  rewrite jsmap_delete_length, decide_True in Hset by done.
  destruct (LRUCache.cache c); [by apply elem_of_nil in Hget|].
  simpl in *. lia.
Qed.

Lemma lru_do_call_maxSize op c :
  LRUCache.maxSize (LRUCache.do_call op c) = LRUCache.maxSize c.
Proof.
  destruct op as [key|key value]; [|done].
  cbn [LRUCache.do_call]. unfold LRUCache.get.
  by destruct (JsMap.get key (LRUCache.cache c)) as [[v|]|].
Qed.

Lemma lru_do_call_size op c :
  0 < LRUCache.maxSize c ->
  JsMap.size (LRUCache.cache c) <= LRUCache.maxSize c ->
  JsMap.size (LRUCache.cache (LRUCache.do_call op c)) <= LRUCache.maxSize c.
Proof.
  intros Hpos Hle. destruct op as [key|key value].
  - pose proof (lru_get_size key c). cbn [LRUCache.do_call]. lia.
  - by apply lru_set_size.
Qed.

Lemma lru_states_size ops c :
  0 < LRUCache.maxSize c ->
  JsMap.size (LRUCache.cache c) <= LRUCache.maxSize c ->
  Forall (fun c' => JsMap.size (LRUCache.cache c') <= LRUCache.maxSize c)
         (LRUCache.states ops c).
Proof.
  revert c. induction ops as [|op ops IH]; intros c Hpos Hle.
  - by constructor.
  - cbn [LRUCache.states]. constructor; [done|].
    rewrite <- (lru_do_call_maxSize op c).
    apply IH; rewrite lru_do_call_maxSize; [done|].
    by apply lru_do_call_size.
Qed.

(** C1. For every capacity [maxSize > 0] and every sequence of [set] and
    [get] calls on a new cache, the number of entries is at most
    [maxSize] after each call; and a [set] on a cache with
    [size >= maxSize] first deletes the entry at the front of the
    iteration order, then inserts. *)
Theorem lru_capacity_invariant (maxSize : Z) (ops : list (LRUCache.call K V)) :
  0 < maxSize ->
  Forall (fun c => JsMap.size (LRUCache.cache c) <= maxSize)
         (LRUCache.states ops (LRUCache.constructor maxSize))
  /\ (forall c key value,
        LRUCache.maxSize c <= JsMap.size (LRUCache.cache c) ->
        LRUCache.cache (LRUCache.set key value c)
        = JsMap.set key value (tail (LRUCache.cache c))).
Proof.
  intros Hpos. split.
  - apply (lru_states_size ops (LRUCache.constructor maxSize)); [done|].
    cbn. unfold JsMap.size. simpl. lia.
  - intros c key value Hfull. cbn [LRUCache.set LRUCache.cache].
    by rewrite lru_evict_full.
Qed.

(** Order of the keys. *)
Lemma lru_before_filter (P : K -> Prop) `{forall x, Decision (P x)} j k l :
  LRUCache.before j k l -> P j -> P k -> LRUCache.before j k (filter P l).
Proof.
  intros (l1 & l2 & l3 & ->) Hj Hk.
  exists (filter P l1), (filter P l2), (filter P l3).
  rewrite filter_app, filter_cons_True, filter_app, filter_cons_True; done.
Qed.

Lemma lru_before_tail j k l :
  NoDup l -> j ∈ tail l -> LRUCache.before j k l -> LRUCache.before j k (tail l).
Proof.
  intros Hnd Hin (l1 & l2 & l3 & ->). destruct l1 as [|x l1].
  - simpl in *. apply NoDup_cons in Hnd as [Hn _]. done.
  - by exists l1, l2, l3.
Qed.

Lemma lru_before_app j k l l' :
  LRUCache.before j k l -> LRUCache.before j k (l ++ l').
Proof.
  intros (l1 & l2 & l3 & ->). exists l1, l2, (l3 ++ l').
  by rewrite <- !app_assoc, <- !app_comm_cons, <- app_assoc.
Qed.

Lemma lru_before_snoc j k l : j ∈ l -> LRUCache.before j k (l ++ [k]).
Proof.
  intros (l1 & l2 & ->)%list_elem_of_split. exists l1, l2, [].
  by rewrite <- app_assoc.
Qed.

(** Keys after a call. *)
Lemma lru_get_hit_keys key c v :
  LRUCache.wf c -> (LRUCache.get key c).1 = Some v ->
  JsMap.keys (LRUCache.cache (LRUCache.get key c).2)
  = filter (fun k => k ≠ key) (JsMap.keys (LRUCache.cache c)) ++ [key].
Proof.
  unfold LRUCache.wf, LRUCache.get. intros Hwf.
  destruct (JsMap.get key (LRUCache.cache c)) as [[v'|]|]; [|done..].
  intros _. cbn [snd LRUCache.cache].
  rewrite jsmap_set_keys, jsmap_delete_keys by done.
  rewrite decide_False; [done|].
  rewrite list_elem_of_filter. tauto.
Qed.

Lemma lru_get_miss key c :
  (LRUCache.get key c).1 = None -> (LRUCache.get key c).2 = c.
Proof.
  unfold LRUCache.get.
  by destruct (JsMap.get key (LRUCache.cache c)) as [[v'|]|].
Qed.

Lemma lru_evict_keys c :
  JsMap.keys (LRUCache.evict c) = JsMap.keys (LRUCache.cache c)
  \/ JsMap.keys (LRUCache.evict c) = tail (JsMap.keys (LRUCache.cache c)).
Proof.
  destruct (decide (LRUCache.maxSize c <= JsMap.size (LRUCache.cache c))).
  - right. rewrite lru_evict_full by done.
    by destruct (LRUCache.cache c) as [|[k v] m].
  - left. rewrite lru_evict_room by lia. done.
Qed.

Lemma lru_set_keys key value c :
  JsMap.keys (LRUCache.cache (LRUCache.set key value c))
  = if decide (key ∈ JsMap.keys (LRUCache.evict c))
    then JsMap.keys (LRUCache.evict c)
    else JsMap.keys (LRUCache.evict c) ++ [key].
Proof. cbn [LRUCache.set LRUCache.cache]. apply jsmap_set_keys. Qed.

Lemma NoDup_tail (l : list K) : NoDup l -> NoDup (tail l).
Proof. destruct l; [done|]. by intros [_ ?]%NoDup_cons. Qed.

Lemma elem_of_tail (x : K) l : x ∈ tail l -> x ∈ l.
Proof. destruct l; [done|]. by right. Qed.

Lemma lru_ahead_do_call j k op c :
  LRUCache.call_key op ≠ j ->
  LRUCache.ahead j k c -> LRUCache.ahead j k (LRUCache.do_call op c).
Proof.
  intros Hop [Hwf Hjk]. destruct op as [key|key value];
    cbn [LRUCache.call_key LRUCache.do_call] in *.
  - destruct (LRUCache.get key c).1 as [v|] eqn:Hres.
    + unfold LRUCache.ahead, LRUCache.wf.
      rewrite (lru_get_hit_keys key c v) by done. split.
      * apply NoDup_app. split_and!.
        -- by apply NoDup_filter.
        -- intros x [Hx _]%list_elem_of_filter ->%list_elem_of_singleton.
           done.
        -- apply NoDup_singleton.
      * rewrite elem_of_app, list_elem_of_filter, list_elem_of_singleton.
        intros [[_ Hj]|Hj]; [|congruence].
        destruct (decide (key = k)) as [->|Hk].
        -- apply lru_before_snoc. rewrite list_elem_of_filter.
           split; [|done]. intros ->. by apply Hop.
        -- apply lru_before_app, lru_before_filter; [by apply Hjk| |];
             congruence.
    + by rewrite lru_get_miss.
  - unfold LRUCache.ahead, LRUCache.wf. rewrite lru_set_keys.
    assert (NoDup (JsMap.keys (LRUCache.evict c))
            /\ (j ∈ JsMap.keys (LRUCache.evict c) ->
                LRUCache.before j k (JsMap.keys (LRUCache.evict c))))
      as [Hwf' Hjk'].
    { destruct (lru_evict_keys c) as [->| ->]; [done|]. split.
      - by apply NoDup_tail.
      - intros Hj. apply lru_before_tail; [done..|].
        by apply Hjk, elem_of_tail. }
    case_decide as Hin; [done|]. split.
    + apply NoDup_app. split_and!; [done| |apply NoDup_singleton].
      by intros x Hx ->%list_elem_of_singleton.
    + rewrite elem_of_app, list_elem_of_singleton.
      intros [Hj|Hj]; [|congruence]. by apply lru_before_app, Hjk'.
Qed.

Lemma lru_ahead_states j k ops c :
  Forall (fun op => LRUCache.call_key op ≠ j) ops ->
  LRUCache.ahead j k c -> Forall (LRUCache.ahead j k) (LRUCache.states ops c).
Proof.
  intros Hops. revert c. induction Hops as [|op ops Hop Hops IH]; intros c Hc.
  - by constructor.
  - cbn [LRUCache.states]. constructor; [done|].
    by apply IH, lru_ahead_do_call.
Qed.

Lemma lru_before_elem j k l : LRUCache.before j k l -> k ∈ l.
Proof.
  intros (l1 & l2 & l3 & ->).
  rewrite elem_of_app, elem_of_cons, elem_of_app, elem_of_cons. tauto.
Qed.

(** C5. A successful [get] of [k] makes [k] the most recently used
    entry, whether or not the cache is at capacity; from then on, under
    any calls that are not on another key [j], [j] is cached only while
    [k] is cached too and stands behind it in the eviction order, so
    [j] is evicted first.  With capacity 2 and sets of three distinct
    keys [a], [b], [d] in this order on a new cache, [get a] finds
    nothing while [get b] and [get d] return their values. *)
Theorem lru_get_protects_entry (c : LRUCache.t K V) (k j : K) (v : V)
    (ops : list (LRUCache.call K V)) (a b d : K) (va vb vd : V) :
  LRUCache.wf c ->
  (LRUCache.get k c).1 = Some v ->
  j ≠ k ->
  Forall (fun op => LRUCache.call_key op ≠ j) ops ->
  a ≠ b -> a ≠ d -> b ≠ d ->
  LRUCache.most_recent (LRUCache.get k c).2 = Some k
  /\ Forall (fun c' =>
              j ∈ JsMap.keys (LRUCache.cache c') ->
              k ∈ JsMap.keys (LRUCache.cache c')
              /\ LRUCache.before j k (JsMap.keys (LRUCache.cache c')))
            (LRUCache.states ops (LRUCache.get k c).2)
  /\ (let c3 := LRUCache.run
                  [LRUCache.Set_ a (Some va); LRUCache.Set_ b (Some vb);
                   LRUCache.Set_ d (Some vd)] (LRUCache.constructor 2) in
      (LRUCache.get a c3).1 = None
      /\ (LRUCache.get b c3).1 = Some vb
      /\ (LRUCache.get d c3).1 = Some vd).
Proof.
  intros Hwf Hget Hjk Hops Hab Had Hbd. split_and!.
  - unfold LRUCache.most_recent.
    rewrite (lru_get_hit_keys k c v) by done. apply last_snoc.
  - assert (LRUCache.ahead j k (LRUCache.get k c).2) as Hahead.
    { unfold LRUCache.ahead, LRUCache.wf.
      rewrite (lru_get_hit_keys k c v) by done. split.
      - apply NoDup_app. split_and!; [by apply NoDup_filter| |apply NoDup_singleton].
        by intros x [Hx _]%list_elem_of_filter ->%list_elem_of_singleton.
      - rewrite elem_of_app, list_elem_of_singleton.
        intros [Hj|Hj]; [|congruence]. by apply lru_before_snoc. }
    eapply Forall_impl; [by apply lru_ahead_states|].
    intros c' [_ Hc'] Hj. split; [|by apply Hc'].
    by eapply lru_before_elem, Hc'.
  - assert (LRUCache.run
              [LRUCache.Set_ a (Some va); LRUCache.Set_ b (Some vb);
               LRUCache.Set_ d (Some vd)] (LRUCache.constructor 2)
            = LRUCache.mk [(b, Some vb); (d, Some vd)] 2) as ->.
    { cbn [LRUCache.run foldl LRUCache.do_call].
      assert (LRUCache.set a (Some va) (LRUCache.constructor 2)
              = LRUCache.mk [(a, Some va)] 2) as ->.
      { unfold LRUCache.set. rewrite lru_evict_room; [done|].
        unfold JsMap.size. simpl. lia. }
      assert (LRUCache.set b (Some vb) (LRUCache.mk [(a, Some va)] 2)
              = LRUCache.mk [(a, Some va); (b, Some vb)] 2) as ->.
      { unfold LRUCache.set. rewrite lru_evict_room
          by (unfold JsMap.size; simpl; lia).
        unfold JsMap.set. simpl. by rewrite decide_False. }
      unfold LRUCache.set. rewrite lru_evict_full
        by (unfold JsMap.size; simpl; lia).
      unfold JsMap.set. simpl. by rewrite decide_False. }
    unfold LRUCache.get. simpl.
    rewrite (decide_False (P := b = a)) by congruence.
    rewrite (decide_False (P := d = a)) by congruence.
    rewrite (decide_True (P := b = b)) by done.
    rewrite (decide_False (P := b = d)) by congruence.
    rewrite (decide_True (P := d = d)) by done.
    done.
Qed.
End LRUCacheFacts.

(** The invariant of the built-in [Map] holds of every cache. *)
Lemma lru_wf_do_call {K V : Type} `{EqDecision K}
    (op : LRUCache.call K V) (c : LRUCache.t K V) :
  LRUCache.wf c -> LRUCache.wf (LRUCache.do_call op c).
Proof.
  intros Hwf. destruct op as [key|key value]; cbn [LRUCache.do_call].
  - destruct (LRUCache.get key c).1 as [v|] eqn:Hres;
      [|by rewrite lru_get_miss].
    unfold LRUCache.wf. rewrite (lru_get_hit_keys key c v) by done.
    apply NoDup_app. split_and!; [by apply NoDup_filter| |apply NoDup_singleton].
    by intros x [Hx _]%list_elem_of_filter ->%list_elem_of_singleton.
  - unfold LRUCache.wf. rewrite lru_set_keys.
    assert (NoDup (JsMap.keys (LRUCache.evict c))) as Hwf'.
    { destruct (lru_evict_keys c) as [->| ->]; [done | by apply NoDup_tail]. }
    case_decide as Hin; [done|].
    apply NoDup_app. split_and!; [done| |apply NoDup_singleton].
    by intros x Hx ->%list_elem_of_singleton.
Qed.

Lemma lru_wf_states {K V : Type} `{EqDecision K}
    (ops : list (LRUCache.call K V)) (maxSize : Z) :
  Forall LRUCache.wf (LRUCache.states ops (LRUCache.constructor maxSize)).
Proof.
  assert (LRUCache.wf (LRUCache.constructor (K:=K) (V:=V) maxSize)) as Hwf
    by apply NoDup_nil_2.
  revert Hwf. generalize (LRUCache.constructor (K:=K) (V:=V) maxSize).
  induction ops as [|op ops IH]; intros c Hwf; cbn [LRUCache.states].
  - by constructor.
  - constructor; [done|]. by apply IH, lru_wf_do_call.
Qed.

Lemma lru_capacity_invariant_witness :
  Forall (fun c => JsMap.size (LRUCache.cache c) <= 2)
    (LRUCache.states
       [LRUCache.Set_ "A" (Some 1); LRUCache.Set_ "B" (Some 2);
        LRUCache.Get "A"; LRUCache.Set_ "C" (Some 3)]
       (LRUCache.constructor 2)).
Proof.
  apply (lru_capacity_invariant (K:=string) (V:=Z) 2). reflexivity.
Defined.

Lemma lru_get_protects_entry_witness :
  let c := LRUCache.mk [("A", Some 1); ("B", Some 2)] 3 in
  LRUCache.most_recent (LRUCache.get "A" c).2 = Some "A"
  /\ Forall (fun c' =>
              "B" ∈ JsMap.keys (LRUCache.cache c') ->
              "A" ∈ JsMap.keys (LRUCache.cache c')
              /\ LRUCache.before "B" "A" (JsMap.keys (LRUCache.cache c')))
       (LRUCache.states
          [LRUCache.Set_ "C" (Some 3); LRUCache.Set_ "D" (Some 4)]
          (LRUCache.get "A" c).2).
Proof.
  intros c.
  pose proof (lru_get_protects_entry (V:=Z) c "A" "B" 1
                [LRUCache.Set_ "C" (Some 3); LRUCache.Set_ "D" (Some 4)]
                "A" "B" "C" 1 2 3) as Hthm.
  destruct Hthm as (Hrecent & Horder & _).
  - apply (bool_decide_unpack (NoDup ["A"; "B"])). vm_compute. exact I.
  - reflexivity.
  - discriminate.
  - repeat constructor; discriminate.
  - discriminate.
  - discriminate.
  - discriminate.
  - split; assumption.
Defined.

(** C6, on a cache of capacity 3.  After [set A], [set B] and a second
    [set A], the iteration order is still [A, B]: the entry that was set
    last is not the most recently used one, it is the first in line for
    eviction, and the two sets that follow delete it and keep [B]. *)
Theorem lru_set_present_key_keeps_position :
  let c := LRUCache.run
             [LRUCache.Set_ "A" (Some 1); LRUCache.Set_ "B" (Some 2);
              LRUCache.Set_ "A" (Some 3)] (LRUCache.constructor 3) in
  LRUCache.cache c = [("A", Some 3); ("B", Some 2)]
  /\ LRUCache.most_recent c = Some "B"
  /\ LRUCache.cache
       (LRUCache.run [LRUCache.Set_ "C" (Some 4); LRUCache.Set_ "D" (Some 5)] c)
     = [("B", Some 2); ("C", Some 4); ("D", Some 5)].
Proof. vm_compute. auto. Qed.

(** *** [Cache] *)

Section CacheFacts.
Context {K V : Type} `{Countable K}.

Lemma cache_get_set_eq (c : Cache.t K V) (key : K) (value : V)
    (ttl s t : Z) :
  Cache.get key t (Cache.set key value ttl s c)
  = if decide (t <= s + ttl)
    then (Some value, Cache.set key value ttl s c)
    else (None, {| Cache.data := delete key (Cache.data c) |}).
Proof.
  unfold Cache.get, Cache.set. cbn [Cache.data].
  rewrite lookup_insert_eq. cbn [Cache.expiry Cache.value].
  destruct (decide (s + ttl < t)) as [Hlate|Hlive].
  - rewrite decide_False by lia. by rewrite delete_insert_eq.
  - by rewrite decide_True by lia.
Qed.

(** C4, as the code has it.  An entry set at time [s] with time to live
    [ttl] is returned by a [get] at time [t] exactly when
    [t <= s + ttl], the cache being left as it is; a [get] at a time
    [t > s + ttl] returns [undefined] and deletes the entry.  An entry
    set at time 0 with a time to live of 10 ms is found at 5 ms and is
    not found at 15 ms. *)
Theorem cache_get_after_set (c : Cache.t K V) (key : K) (value : V)
    (ttl s t : Z) :
  Cache.get key t (Cache.set key value ttl s c)
  = (if decide (t <= s + ttl)
     then (Some value, Cache.set key value ttl s c)
     else (None, {| Cache.data := delete key (Cache.data c) |}))
  /\ (Cache.get key 5 (Cache.set key value 10 0 c)).1 = Some value
  /\ (Cache.get key 15 (Cache.set key value 10 0 c)).1 = None.
Proof.
  split_and!.
  - apply cache_get_set_eq.
  - by rewrite cache_get_set_eq.
  - by rewrite cache_get_set_eq.
Qed.
End CacheFacts.

(** At [t = s + ttl] the entry is still returned, and kept. *)
Lemma cache_get_at_expiry_finds_entry :
  let c := Cache.set "k" 7 10 0 Cache.constructor in
  0 + 10 <= 10
  /\ Cache.get "k" 10 c = (Some 7, c)
  /\ (Cache.get "k" 10 c).1 ≠ None.
Proof. split_and!; [lia | reflexivity | discriminate]. Qed.

(** *** [ResourcePool] *)

Section ResourcePoolFacts.
Context {T : Type} `{Countable T} {W E : Type}.
Variable factory : W -> result E T * W.
Variable reset : T -> W -> result E unit * W.
Implicit Types (s : ResourcePool.t T) (w : W) (item : T).

Lemma pool_pop_nil : ResourcePool.pop (T:=T) [] = None.
Proof. reflexivity. Qed.

(** C2, as the code has it.  Whatever the number of items in use and
    whatever [initialSize], [acquire] returns an item as long as the
    factory does not throw: the idle item that [pop] takes when there is
    one, and otherwise a new one built by the factory.  The item joins
    the items in use, so that their number grows by one whenever the item
    was not in use already: nothing bounds it. *)
Theorem pool_acquire_unbounded s w :
  (forall w0, exists item w', factory w0 = (Ok item, w')) ->
  exists item s' w',
    ResourcePool.acquire factory s w = (Ok item, s', w')
    /\ ResourcePool.inUse s' = {[item]} ∪ ResourcePool.inUse s
    /\ (item ∉ ResourcePool.inUse s ->
        size (ResourcePool.inUse s') = S (size (ResourcePool.inUse s)))
    /\ (forall idle rest,
          ResourcePool.pop (ResourcePool.pool s) = Some (idle, rest) ->
          item = idle /\ ResourcePool.pool s' = rest /\ w' = w)
    /\ (ResourcePool.pool s = [] -> factory w = (Ok item, w')).
Proof.
  intros Hf. unfold ResourcePool.acquire.
  destruct (ResourcePool.pop (ResourcePool.pool s)) as [[idle rest]|] eqn:Hpop.
  - eexists idle, _, w. split_and!; [done..| | |].
    + intros Hnew. cbn [ResourcePool.inUse].
      rewrite size_union by set_solver. by rewrite size_singleton.
    + by intros idle' rest' [= <- <-].
    + intros Hnil. by rewrite Hnil, pool_pop_nil in Hpop.
  - destruct (Hf w) as (item & w' & Hw). rewrite Hw.
    eexists item, _, w'. split_and!; [done..| |done|done].
    intros Hnew. cbn [ResourcePool.inUse].
    rewrite size_union by set_solver. by rewrite size_singleton.
Qed.

(** C7, as the code has it.  [release] of an item that is not checked out
    returns normally and changes nothing: neither the idle list, nor the
    items in use, nor the world (the reset hook is not called). *)
Theorem pool_release_not_in_use_is_noop item s w :
  item ∉ ResourcePool.inUse s ->
  ResourcePool.release reset item s w = (Ok (), s, w).
Proof.
  intros Hout. unfold ResourcePool.release. by rewrite decide_False.
Qed.
End ResourcePoolFacts.

(** A pool built with [initialSize = 1] hands out two items: the second
    call of [acquire] builds a new item although one is checked out
    already, and two items are then in use. *)
Lemma pool_in_use_exceeds_initial_size :
  ResourcePool.constructor PoolExample.factory 1 0%nat
  = (Ok PoolExample.fresh, 1%nat)
  /\ ResourcePool.acquire PoolExample.factory PoolExample.fresh 1%nat
     = (Ok 0%nat, PoolExample.one_out, 1%nat)
  /\ ResourcePool.acquire PoolExample.factory PoolExample.one_out 1%nat
     = (Ok 1%nat, PoolExample.two_out, 2%nat)
  /\ size (ResourcePool.inUse PoolExample.two_out) = 2%nat
  /\ ResourcePool.initialSize PoolExample.two_out = 1
  /\ ~ (Z.of_nat (size (ResourcePool.inUse PoolExample.two_out))
        <= ResourcePool.initialSize PoolExample.two_out).
Proof. split_and!; [reflexivity..|]. vm_compute. by intros H; apply H. Qed.

Lemma pool_acquire_unbounded_witness :
  exists item s' w',
    ResourcePool.acquire PoolExample.factory PoolExample.one_out 1%nat
    = (Ok item, s', w')
    /\ ResourcePool.inUse s' = {[item]} ∪ ResourcePool.inUse PoolExample.one_out
    /\ (item ∉ ResourcePool.inUse PoolExample.one_out ->
        size (ResourcePool.inUse s')
        = S (size (ResourcePool.inUse PoolExample.one_out)))
    /\ (forall idle rest,
          ResourcePool.pop (ResourcePool.pool PoolExample.one_out)
          = Some (idle, rest) ->
          item = idle /\ ResourcePool.pool s' = rest /\ w' = 1%nat)
    /\ (ResourcePool.pool PoolExample.one_out = [] ->
        PoolExample.factory 1%nat = (Ok item, w')).
Proof.
  apply (pool_acquire_unbounded PoolExample.factory).
  intros w0. exists w0, (S w0). reflexivity.
Defined.

(** [release] of item 7, which was never handed out, on a pool with one
    item checked out: the call returns normally and the pool is as
    before. *)
Lemma pool_release_unknown_item_returns :
  (7%nat ∉ ResourcePool.inUse PoolExample.one_out)
  /\ ResourcePool.release PoolExample.reset 7%nat PoolExample.one_out 1%nat
     = (Ok (), PoolExample.one_out, 1%nat)
  /\ (forall error : JsError,
        (ResourcePool.release PoolExample.reset 7%nat PoolExample.one_out
           1%nat).1.1 ≠ Throw error).
Proof.
  split_and!; [|reflexivity|discriminate].
  apply (bool_decide_unpack (7%nat ∉ ResourcePool.inUse PoolExample.one_out)).
  vm_compute. exact I.
Qed.

Lemma pool_release_not_in_use_is_noop_witness :
  ResourcePool.release PoolExample.reset 7%nat PoolExample.one_out 1%nat
  = (Ok (), PoolExample.one_out, 1%nat).
Proof.
  apply (pool_release_not_in_use_is_noop PoolExample.reset).
  apply (bool_decide_unpack (7%nat ∉ ResourcePool.inUse PoolExample.one_out)).
  vm_compute. exact I.
Defined.

(** *** [retryOperation] *)

Section RetryFacts.
Context {W E T : Type}.
Variable operation : W -> result E T * W.

Lemma retry_unfold (retries : Z) (w : W) :
  Retry.retryOperation operation retries w
  = match operation w with
    | (Ok value, w') => (Ok value, w')
    | (Throw error, w') =>
        if decide (0 < retries)
        then Retry.retryOperation operation (retries - 1) w'
        else (Throw error, w')
    end.
Proof.
  rewrite Retry.retryOperation_equation_1.
  destruct (operation w) as [[value|error] w']; simpl; [reflexivity|].
  destruct (decide (0 < retries)); reflexivity.
Qed.

(** With an operation that always throws, [retries] recursive calls are
    made, and the result is the one of the call of the operation that
    comes after them. *)
Lemma retry_always_failing (n : nat) (w : W) :
  (forall w0, exists error, (operation w0).1 = Throw error) ->
  Retry.retryOperation operation (Z.of_nat n) w
  = operation (Nat.iter n (fun w0 => (operation w0).2) w).
Proof.
  intros Hfail. revert w. induction n as [|n IH]; intros w.
  - rewrite retry_unfold. destruct (Hfail w) as [error Herr].
    destruct (operation w) as [r w'] eqn:Hop. cbn in Herr. subst r.
    cbn. by rewrite Hop.
  - rewrite retry_unfold. destruct (Hfail w) as [error Herr].
    destruct (operation w) as [r w'] eqn:Hop. cbn in Herr. subst r.
    rewrite decide_True by lia.
    replace (Z.of_nat (S n) - 1) with (Z.of_nat n) by lia.
    rewrite IH, Nat.iter_succ_r. by rewrite Hop.
Qed.
End RetryFacts.

(** *** [NetworkOptimizer] *)

Section NetworkOptimizerFacts.
Context {W E Data Response : Type}.
Variable Date_now : W -> Z.
Variable global_fetch : string -> Z -> W -> result E Response * W.
Variable response_ok : Response -> bool.
Variable response_status : Response -> Z.
Variable response_json : Response -> W -> result E Data * W.
Variable http_error : Z -> E.
Variable sleep : Z -> W -> W.

(** What a world has seen: the number of calls of the global [fetch] and
    the delays given to [setTimeout], in order. *)
Variable calls : W -> nat.
Variable slept : W -> list Z.
Hypothesis global_fetch_calls : forall url timeout w,
  calls (global_fetch url timeout w).2 = S (calls w).
Hypothesis global_fetch_slept : forall url timeout w,
  slept (global_fetch url timeout w).2 = slept w.
Hypothesis response_json_calls : forall r w,
  calls (response_json r w).2 = calls w.
Hypothesis response_json_slept : forall r w,
  slept (response_json r w).2 = slept w.
Hypothesis sleep_calls : forall ms w, calls (sleep ms w) = calls w.
Hypothesis sleep_slept : forall ms w, slept (sleep ms w) = slept w ++ [ms].

Local Abbreviation attempt :=
  (NetworkOptimizer.attempt Date_now global_fetch response_ok response_status
     response_json http_error).
Local Abbreviation retry_loop :=
  (NetworkOptimizer.retry_loop Date_now global_fetch response_ok
     response_status response_json http_error sleep).
Local Abbreviation fetch :=
  (NetworkOptimizer.fetch Date_now global_fetch response_ok response_status
     response_json http_error sleep).

(** One attempt is one call of the global [fetch] and no delay. *)
Lemma net_attempt_seen url ttl timeout cache w :
  calls (attempt url ttl timeout cache w).2 = S (calls w)
  /\ slept (attempt url ttl timeout cache w).2 = slept w.
Proof.
  unfold NetworkOptimizer.attempt.
  pose proof (global_fetch_calls url timeout w) as Hc.
  pose proof (global_fetch_slept url timeout w) as Hs.
  destruct (global_fetch url timeout w) as [[response|error] w1]; cbn in *;
    [|done].
  destruct (response_ok response); cbn; [|done].
  pose proof (response_json_calls response w1) as Hc'.
  pose proof (response_json_slept response w1) as Hs'.
  destruct (response_json response w1) as [[data|error] w2]; cbn in *;
    split; congruence.
Qed.

(** The loop with [n] iterations left at index [i]: [k] attempts fail,
    each followed by the delay of its index; then either an attempt
    succeeds, or [k = n] and the loop ends. *)
Lemma net_retry_loop_seen n i lastError url ttl timeout cache w :
  exists k : nat,
    slept (retry_loop n i lastError url ttl timeout cache w).2
    = slept w ++ (NetworkOptimizer.backoff <$> seqZ i (Z.of_nat k))
    /\ match (retry_loop n i lastError url ttl timeout cache w).1.1 with
       | Ok _ =>
           (k < n)%nat
           /\ calls (retry_loop n i lastError url ttl timeout cache w).2
              = (calls w + k + 1)%nat
       | Throw _ =>
           k = n
           /\ calls (retry_loop n i lastError url ttl timeout cache w).2
              = (calls w + n)%nat
       end.
Proof.
  revert i lastError cache w.
  induction n as [|n IH]; intros i lastError cache w.
  - exists 0%nat. cbn. rewrite app_nil_r. split; [done|]. split; [done|lia].
  - cbn [NetworkOptimizer.retry_loop].
    destruct (net_attempt_seen url ttl timeout cache w) as [Hc Hs].
    destruct (attempt url ttl timeout cache w) as [[[data|error] cache'] w'];
      cbn in Hc, Hs.
    + exists 0%nat. cbn. rewrite app_nil_r. split; [done|]. split; lia.
    + destruct (IH (i + 1) (Some error) cache'
                  (sleep (NetworkOptimizer.backoff i) w')) as (k & Hk & Hres).
      exists (S k). split.
      * rewrite Hk, sleep_slept, Hs, <- app_assoc. f_equal.
        replace (Z.of_nat (S k)) with (Z.succ (Z.of_nat k)) by lia.
        rewrite (seqZ_cons i) by lia. rewrite fmap_cons. cbn [app].
        replace (Z.pred (Z.succ (Z.of_nat k))) with (Z.of_nat k) by lia.
        by replace (Z.succ i) with (i + 1) by lia.
      * rewrite sleep_calls, Hc in Hres.
        destruct (retry_loop n (i + 1) (Some error) url ttl timeout cache'
                    (sleep (NetworkOptimizer.backoff i) w')).1.1;
          destruct Hres as [? ->]; split; lia.
Qed.

(** An attempt whose call of the global [fetch] throws. *)
Lemma net_attempt_throws url ttl timeout cache w error :
  (global_fetch url timeout w).1 = Throw error ->
  attempt url ttl timeout cache w
  = (Throw error, cache, (global_fetch url timeout w).2).
Proof.
  intros Herr. unfold NetworkOptimizer.attempt.
  destruct (global_fetch url timeout w) as [r w1]. cbn in Herr. by subst r.
Qed.

(** With a network that is down the loop ends by throwing. *)
Lemma net_retry_loop_down n i lastError url ttl timeout cache w :
  (forall w0, exists error, (global_fetch url timeout w0).1 = Throw error) ->
  exists e, (retry_loop n i lastError url ttl timeout cache w).1 = (Throw e, cache).
Proof.
  intros Hdown. revert i lastError w.
  induction n as [|n IH]; intros i lastError w.
  - by exists lastError.
  - cbn [NetworkOptimizer.retry_loop]. destruct (Hdown w) as [error Herr].
    rewrite (net_attempt_throws url ttl timeout cache w error Herr).
    apply IH.
Qed.

Lemma net_fetch_miss url opts cache w :
  cache !! url = None ->
  fetch url opts cache w
  = retry_loop (Z.to_nat (default 3%Z (NetworkOptimizer.opt_retries opts))) 0
      None url (default (5 * 60 * 1000) (NetworkOptimizer.opt_ttl opts))
      (default 5000 (NetworkOptimizer.opt_timeout opts)) cache w.
Proof.
  intros Hmiss. unfold NetworkOptimizer.fetch. rewrite Hmiss.
  by destruct (default false (NetworkOptimizer.opt_forceRefresh opts)).
Qed.

Lemma net_fetch_seen url opts cache w :
  exists k : nat,
    slept (fetch url opts cache w).2
    = slept w ++ (NetworkOptimizer.backoff <$> seqZ 0 (Z.of_nat k))
    /\ (k <= Z.to_nat (default 3%Z (NetworkOptimizer.opt_retries opts)))%nat
    /\ (forall e, (fetch url opts cache w).1.1 = Throw e ->
        k = Z.to_nat (default 3%Z (NetworkOptimizer.opt_retries opts))
        /\ calls (fetch url opts cache w).2 = (calls w + k)%nat).
Proof.
  set (n := Z.to_nat (default 3%Z (NetworkOptimizer.opt_retries opts))).
  set (ttl := default (5 * 60 * 1000) (NetworkOptimizer.opt_ttl opts)).
  set (timeout := default 5000 (NetworkOptimizer.opt_timeout opts)).
  assert (exists k : nat,
    slept (retry_loop n 0 None url ttl timeout cache w).2
    = slept w ++ (NetworkOptimizer.backoff <$> seqZ 0 (Z.of_nat k))
    /\ (k <= n)%nat
    /\ (forall e,
          (retry_loop n 0 None url ttl timeout cache w).1.1 = Throw e ->
          k = n
          /\ calls (retry_loop n 0 None url ttl timeout cache w).2
             = (calls w + k)%nat)) as Hloop.
  { destruct (net_retry_loop_seen n 0 None url ttl timeout cache w)
      as (k & Hk & Hres).
    exists k. split; [done|].
    destruct (retry_loop n 0 None url ttl timeout cache w).1.1.
    - split; [lia | done].
    - destruct Hres as [-> Hcalls]. split; [lia | done]. }
  assert (exists k : nat,
    slept w = slept w ++ (NetworkOptimizer.backoff <$> seqZ 0 (Z.of_nat k))
    /\ (k <= n)%nat) as Hhit.
  { exists 0%nat. cbn. rewrite app_nil_r. split; [done | lia]. }
  unfold NetworkOptimizer.fetch. fold n ttl timeout.
  destruct (default false (NetworkOptimizer.opt_forceRefresh opts)); [done|].
  destruct (cache !! url) as [hit|]; [|done].
  case_decide; [|done].
  destruct Hhit as (k & Hk & Hle). exists k. by split_and!.
Qed.

End NetworkOptimizerFacts.

(** The delays of [fetch] with a network that is down. *)
Lemma net_example_seen (retries : Z) :
  NetExample.slept (NetExample.fetch retries).2
  = NetworkOptimizer.backoff <$> seqZ 0 (Z.of_nat (Z.to_nat retries))
  /\ NetExample.calls (NetExample.fetch retries).2 = Z.to_nat retries.
Proof.
  unfold NetExample.fetch.
  edestruct (net_fetch_seen NetExample.Date_now NetExample.global_fetch
               NetExample.response_ok NetExample.response_status
               NetExample.response_json NetExample.http_error
               NetExample.sleep NetExample.calls NetExample.slept)
    as (k & Hk & _ & Hthrow); [done..|].
  rewrite Hk. clear Hk. rewrite net_fetch_miss in * by done.
  edestruct (net_retry_loop_down NetExample.Date_now NetExample.global_fetch
               NetExample.response_ok NetExample.response_status
               NetExample.response_json NetExample.http_error
               NetExample.sleep) as [e He];
    [by intros w0; eexists|].
  destruct (Hthrow e) as [-> Hcalls]; [by rewrite He|].
  rewrite Hcalls. done.
Qed.

(** No cap bounds the delays: whatever [backoffCap], some number of
    retries makes [fetch] ask [setTimeout] for a delay of more than one
    and a half times it. *)
Lemma net_fetch_delay_exceeds_every_cap :
  ~ exists backoffCap : Z, forall retries : Z,
      Forall (fun delay => delay <= backoffCap + backoffCap / 2)
             (NetExample.slept (NetExample.fetch retries).2).
Proof.
  intros [cap Hcap]. specialize (Hcap (Z.max 0 cap + 1)).
  rewrite (proj1 (net_example_seen _)), Z2Nat.id in Hcap by lia.
  rewrite Forall_fmap, Forall_forall in Hcap.
  specialize (Hcap (Z.max 0 cap)). cbn in Hcap.
  unfold NetworkOptimizer.backoff in Hcap.
  pose proof (Z.pow_gt_lin_r 2 (Z.max 0 cap)) as Hpow.
  assert (Z.max 0 cap ∈ seqZ 0 (Z.max 0 cap + 1)) as Hin
    by (apply elem_of_seqZ; lia).
  specialize (Hcap Hin).
  assert (Z.max 0 cap < 2 ^ Z.max 0 cap) as Hlt by (apply Hpow; lia).
  clear Hpow Hin. generalize dependent (2 ^ Z.max 0 cap). intros p Hcap Hlt.
  Z.div_mod_to_equations. lia.
Qed.

(** *** The order of the requests and of the delays *)

Section NetworkOptimizerTrace.
Context {W E Data Response : Type}.
Variable Date_now : W -> Z.
Variable global_fetch : string -> Z -> W -> result E Response * W.
Variable response_ok : Response -> bool.
Variable response_status : Response -> Z.
Variable response_json : Response -> W -> result E Data * W.
Variable http_error : Z -> E.
Variable sleep : Z -> W -> W.

(** What a world has seen, in order: a call of the global [fetch] is a
    request, a call of [setTimeout] is a delay, and reading the body of a
    response is neither. *)
Variable trace : W -> list NetTrace.event.
Hypothesis global_fetch_trace : forall url timeout w,
  trace (global_fetch url timeout w).2 = trace w ++ [NetTrace.Request url].
Hypothesis response_json_trace : forall r w,
  trace (response_json r w).2 = trace w.
Hypothesis sleep_trace : forall ms w,
  trace (sleep ms w) = trace w ++ [NetTrace.Wait ms].

Local Abbreviation attempt :=
  (NetworkOptimizer.attempt Date_now global_fetch response_ok response_status
     response_json http_error).
Local Abbreviation retry_loop :=
  (NetworkOptimizer.retry_loop Date_now global_fetch response_ok
     response_status response_json http_error sleep).
Local Abbreviation fetch :=
  (NetworkOptimizer.fetch Date_now global_fetch response_ok response_status
     response_json http_error sleep).

(** One attempt is one request. *)
Lemma net_attempt_trace url ttl timeout cache w :
  trace (attempt url ttl timeout cache w).2 = trace w ++ [NetTrace.Request url].
Proof.
  unfold NetworkOptimizer.attempt.
  pose proof (global_fetch_trace url timeout w) as Hreq.
  destruct (global_fetch url timeout w) as [[response|error] w1]; cbn in *;
    [|done].
  destruct (response_ok response); cbn; [|done].
  pose proof (response_json_trace response w1) as Hjson.
  destruct (response_json response w1) as [[data|error] w2]; cbn in *;
    congruence.
Qed.

Lemma net_failed_rounds_cons url i k :
  NetTrace.failed_rounds url i (S k)
  = [NetTrace.Request url; NetTrace.Wait (2 ^ i * 1000)]
    ++ NetTrace.failed_rounds url (i + 1) k.
Proof.
  unfold NetTrace.failed_rounds.
  replace (Z.of_nat (S k)) with (Z.succ (Z.of_nat k)) by lia.
  rewrite (seqZ_cons i) by lia. rewrite fmap_cons. cbn [concat].
  replace (Z.pred (Z.succ (Z.of_nat k))) with (Z.of_nat k) by lia.
  by replace (Z.succ i) with (i + 1) by lia.
Qed.

(** The loop with [n] iterations left at index [i]: [k] attempts fail,
    each a request followed by the delay of its index; then either the
    loop is over, or one more request is made, which succeeds. *)
Lemma net_retry_loop_trace n i lastError url ttl timeout cache w :
  exists k : nat,
    match (retry_loop n i lastError url ttl timeout cache w).1.1 with
    | Throw _ =>
        k = n
        /\ trace (retry_loop n i lastError url ttl timeout cache w).2
           = trace w ++ NetTrace.failed_rounds url i k
    | Ok _ =>
        (k < n)%nat
        /\ trace (retry_loop n i lastError url ttl timeout cache w).2
           = trace w ++ NetTrace.failed_rounds url i k
             ++ [NetTrace.Request url]
    end.
Proof.
  revert i lastError cache w.
  induction n as [|n IH]; intros i lastError cache w.
  - exists 0%nat. cbn. by rewrite app_nil_r.
  - cbn [NetworkOptimizer.retry_loop].
    pose proof (net_attempt_trace url ttl timeout cache w) as Hreq.
    destruct (attempt url ttl timeout cache w) as [[[data|error] cache'] w'];
      cbn in Hreq.
    + exists 0%nat. cbn. split; [lia | done].
    + destruct (IH (i + 1) (Some error) cache'
                  (sleep (NetworkOptimizer.backoff i) w')) as [k Hk].
      exists (S k). rewrite net_failed_rounds_cons.
      rewrite sleep_trace, Hreq in Hk.
      destruct (retry_loop n (i + 1) (Some error) url ttl timeout cache'
                  (sleep (NetworkOptimizer.backoff i) w')).1.1;
        destruct Hk as [Hn ->]; (split; [lia|]);
        unfold NetworkOptimizer.backoff; by rewrite <- !app_assoc.
Qed.

(** C9, as the code has it.  What a call of [fetch] asks of its
    environment is, in this order: for each attempt that fails, one
    request followed at once by the delay [2^i * 1000] ms given to
    [setTimeout], [i] being the number of the attempt counted from 0,
    with no cap and no jitter; and then one more request when an attempt
    succeeds.  No delay comes before the first request or after a
    request that succeeds.  When [fetch] throws, all [retries] attempts
    have failed and each is followed by its delay, the last one too.  A
    call that returns without a request is one served from the cache. *)
Theorem net_fetch_backoff_after_each_failure url opts cache w :
  exists k : nat,
    match (fetch url opts cache w).1.1 with
    | Throw _ =>
        k = Z.to_nat (default 3%Z (NetworkOptimizer.opt_retries opts))
        /\ trace (fetch url opts cache w).2
           = trace w ++ NetTrace.failed_rounds url 0 k
    | Ok _ =>
        (default false (NetworkOptimizer.opt_forceRefresh opts) = false
         /\ is_Some (cache !! url)
         /\ (fetch url opts cache w).2 = w)
        \/ ((k < Z.to_nat (default 3%Z (NetworkOptimizer.opt_retries opts)))%nat
            /\ trace (fetch url opts cache w).2
               = trace w ++ NetTrace.failed_rounds url 0 k
                 ++ [NetTrace.Request url])
    end.
Proof.
  set (n := Z.to_nat (default 3 (NetworkOptimizer.opt_retries opts))).
  set (ttl := default (5 * 60 * 1000) (NetworkOptimizer.opt_ttl opts)).
  set (timeout := default 5000 (NetworkOptimizer.opt_timeout opts)).
  assert (exists k : nat,
    match (retry_loop n 0 None url ttl timeout cache w).1.1 with
    | Throw _ =>
        k = n
        /\ trace (retry_loop n 0 None url ttl timeout cache w).2
           = trace w ++ NetTrace.failed_rounds url 0 k
    | Ok _ =>
        (default false (NetworkOptimizer.opt_forceRefresh opts) = false
         /\ is_Some (cache !! url)
         /\ (retry_loop n 0 None url ttl timeout cache w).2 = w)
        \/ ((k < n)%nat
            /\ trace (retry_loop n 0 None url ttl timeout cache w).2
               = trace w ++ NetTrace.failed_rounds url 0 k
                 ++ [NetTrace.Request url])
    end) as Hloop.
  { destruct (net_retry_loop_trace n 0 None url ttl timeout cache w)
      as [k Hk]. exists k.
    destruct (retry_loop n 0 None url ttl timeout cache w).1.1;
      [by right | done]. }
  unfold NetworkOptimizer.fetch. fold n ttl timeout.
  destruct (default false (NetworkOptimizer.opt_forceRefresh opts)) eqn:Hforce;
    [done|].
  destruct (cache !! url) as [hit|] eqn:Hhit; [|done].
  case_decide; [|done].
  exists 0%nat. cbn. left. by split_and!.
Qed.
End NetworkOptimizerTrace.

Lemma net_fetch_backoff_after_each_failure_witness :
  exists k : nat,
    (default false
       (NetworkOptimizer.opt_forceRefresh NetUpExample.no_options) = false
     /\ is_Some ((∅ : gmap string (NetworkOptimizer.cached string))
                 !! "https://example.org/users")
     /\ NetFlakyExample.fetch.2 = NetFlakyExample.start)
    \/ ((k < Z.to_nat
               (default 3%Z
                  (NetworkOptimizer.opt_retries NetUpExample.no_options)))%nat
        /\ NetFlakyExample.trace NetFlakyExample.fetch.2
           = NetFlakyExample.trace NetFlakyExample.start
             ++ NetTrace.failed_rounds "https://example.org/users" 0 k
             ++ [NetTrace.Request "https://example.org/users"]).
Proof.
  exact (net_fetch_backoff_after_each_failure NetFlakyExample.Date_now
           NetFlakyExample.global_fetch NetExample.response_ok
           NetExample.response_status NetFlakyExample.response_json
           NetExample.http_error NetFlakyExample.sleep NetFlakyExample.trace
           ltac:(intros url timeout [tr c [|f]]; reflexivity)
           ltac:(reflexivity) ltac:(reflexivity)
           "https://example.org/users" NetUpExample.no_options ∅
           NetFlakyExample.start).
Defined.

(** The run of this example: two requests that fail, each followed by
    its delay, and a third request, which succeeds. *)
Lemma net_flaky_example_trace :
  NetFlakyExample.fetch.1.1 = Ok "{}"
  /\ NetFlakyExample.trace NetFlakyExample.fetch.2
     = [NetTrace.Request "https://example.org/users"; NetTrace.Wait 1000;
        NetTrace.Request "https://example.org/users"; NetTrace.Wait 2000;
        NetTrace.Request "https://example.org/users"].
Proof. split; reflexivity. Qed.

(** *** Exhausted retries *)

Section RetryExhaustedFacts.
Context {W E T : Type}.
Variable operation : W -> result E T * W.
Variable invocations : W -> nat.

Context {NW NE Data Response : Type}.
Variable Date_now : NW -> Z.
Variable global_fetch : string -> Z -> NW -> result NE Response * NW.
Variable response_ok : Response -> bool.
Variable response_status : Response -> Z.
Variable response_json : Response -> NW -> result NE Data * NW.
Variable http_error : Z -> NE.
Variable sleep : Z -> NW -> NW.
Variable calls : NW -> nat.

Local Abbreviation fetch :=
  (NetworkOptimizer.fetch Date_now global_fetch response_ok response_status
     response_json http_error sleep).

(** C3, as the code has it.  With an operation that throws at every call
    and [retries = 2], [retryOperation] calls the operation exactly 3
    times and then throws the value thrown by the third call, as it is:
    nothing wraps it.  With a network on which every request throws and
    [retries = 2], [NetworkOptimizer.fetch] makes exactly 2 requests and
    then throws the error of the second one. *)
Theorem retry_exhausted_rethrows_last_error (w : W) (nw : NW)
    (url : string) (opts : NetworkOptimizer.options)
    (cache : gmap string (NetworkOptimizer.cached Data)) :
  (forall w0, exists error, (operation w0).1 = Throw error) ->
  (forall w0, invocations (operation w0).2 = S (invocations w0)) ->
  (forall u t w0, exists error, (global_fetch u t w0).1 = Throw error) ->
  (forall u t w0, calls (global_fetch u t w0).2 = S (calls w0)) ->
  (forall ms w0, calls (sleep ms w0) = calls w0) ->
  NetworkOptimizer.opt_retries opts = Some 2 ->
  cache !! url = None ->
  (let w1 := (operation w).2 in
   let w2 := (operation w1).2 in
   exists error,
     (operation w2).1 = Throw error
     /\ Retry.retryOperation operation 2 w = (Throw error, (operation w2).2)
     /\ invocations (Retry.retryOperation operation 2 w).2
        = (invocations w + 3)%nat)
  /\ (let timeout := default 5000 (NetworkOptimizer.opt_timeout opts) in
      let nw1 := sleep (NetworkOptimizer.backoff 0) (global_fetch url timeout nw).2 in
      exists error,
        (global_fetch url timeout nw1).1 = Throw error
        /\ (fetch url opts cache nw).1 = (Throw (Some error), cache)
        /\ calls (fetch url opts cache nw).2 = (calls nw + 2)%nat).
Proof.
  intros Hfail Hinv Hdown Hcalls Hsleep Hretries Hmiss. split.
  - intros w1 w2. destruct (Hfail w2) as [error Herr]. exists error.
    pose proof (retry_always_failing operation 2 w Hfail) as Hrun.
    change (Z.of_nat 2) with 2 in Hrun.
    change (Nat.iter 2 (fun w0 => (operation w0).2) w) with w2 in Hrun.
    rewrite Hrun. split_and!; [done| |].
    + destruct (operation w2) as [r w3]. cbn in Herr. by subst r.
    + unfold w2, w1. rewrite !Hinv. lia.
  - intros timeout nw1. destruct (Hdown url timeout nw1) as [error Herr].
    exists error. split; [done|].
    rewrite (net_fetch_miss Date_now global_fetch response_ok response_status
               response_json http_error sleep url opts cache nw Hmiss).
    rewrite Hretries. cbn [default]. fold timeout.
    change (Z.to_nat (id 2)) with 2%nat. cbn [NetworkOptimizer.retry_loop].
    destruct (Hdown url timeout nw) as [error0 Herr0].
    rewrite (net_attempt_throws Date_now global_fetch response_ok
               response_status response_json http_error url _ timeout cache
               nw error0 Herr0).
    fold nw1.
    rewrite (net_attempt_throws Date_now global_fetch response_ok
               response_status response_json http_error url _ timeout cache
               nw1 error Herr).
    cbn [fst snd]. split; [done|].
    unfold nw1. rewrite Hsleep, Hcalls, Hsleep, Hcalls. lia.
Qed.
End RetryExhaustedFacts.

(** With [retries = 2] the error [retryOperation] throws is the [Error]
    of the operation itself, whose name is not [RetryExhausted], and
    [fetch] stops after 2 requests, not 3. *)
Lemma retry_exhausted_not_wrapped :
  Retry.retryOperation RetryExample.failing 2 0%nat
  = (Throw RetryExample.boom, 3%nat)
  /\ name RetryExample.boom ≠ "RetryExhausted"
  /\ (NetExample.fetch 2).1.1 = Throw (Some NetExample.network_down)
  /\ NetExample.calls (NetExample.fetch 2).2 = 2%nat
  /\ NetExample.calls (NetExample.fetch 2).2 ≠ 3%nat.
Proof. split_and!; [reflexivity | discriminate | reflexivity.. | discriminate]. Qed.

Lemma retry_exhausted_rethrows_last_error_witness :
  (exists error,
     (RetryExample.failing 2%nat).1 = Throw error
     /\ Retry.retryOperation RetryExample.failing 2 0%nat = (Throw error, 3%nat)
     /\ (Retry.retryOperation RetryExample.failing 2 0%nat).2 = 3%nat)
  /\ (exists error,
        (NetExample.global_fetch "https://example.org/users" 5000
           (NetExample.sleep 1000
              (NetExample.global_fetch "https://example.org/users" 5000
                 NetExample.start).2)).1 = Throw error
        /\ (NetExample.fetch 2).1 = (Throw (Some error), ∅)
        /\ NetExample.calls (NetExample.fetch 2).2 = 2%nat).
Proof.
  apply (retry_exhausted_rethrows_last_error RetryExample.failing
           (fun w => w) NetExample.Date_now NetExample.global_fetch
           NetExample.response_ok NetExample.response_status
           NetExample.response_json NetExample.http_error NetExample.sleep
           NetExample.calls 0%nat NetExample.start
           "https://example.org/users"
           {| NetworkOptimizer.opt_ttl := None;
              NetworkOptimizer.opt_forceRefresh := None;
              NetworkOptimizer.opt_retries := Some 2;
              NetworkOptimizer.opt_timeout := None |} ∅).
  - intros w0. by exists RetryExample.boom.
  - reflexivity.
  - intros u t w0. by exists NetExample.network_down.
  - reflexivity.
  - reflexivity.
  - reflexivity.
  - reflexivity.
Defined.

(** *** [AsyncOperationManager] *)

Section AsyncOperationManagerFacts.
Context {Op : Type} `{EqDecision Op}.
Variable throws_at_call : Op -> bool.
Implicit Types (s : AsyncOperationManager.t Op) (called : list Op).

Local Abbreviation dispatch := (AsyncOperationManager.dispatch throws_at_call).
Local Abbreviation processQueue :=
  (AsyncOperationManager.processQueue throws_at_call).
Local Abbreviation step := (AsyncOperationManager.step throws_at_call).
Local Abbreviation reaches := (AsyncOperationManager.reaches throws_at_call).
Local Abbreviation run := (AsyncOperationManager.run throws_at_call).

Lemma aom_idle_invariant s : AsyncOperationManager.idle s -> AsyncOperationManager.invariant s.
Proof.
  intros [Hnone Hzero]. unfold AsyncOperationManager.invariant.
  rewrite Hnone, Hzero. cbn. split_and!; [done | lia | done].
Qed.

Lemma aom_dispatch_post again s s' called :
  AsyncOperationManager.idle s -> AsyncOperationManager.isProcessing s = true ->
  (forall s1 r, AsyncOperationManager.idle s1 -> again s1 = Some r ->
                AsyncOperationManager.post s1 r.1 r.2) ->
  dispatch again s = Some (s', called) -> AsyncOperationManager.post s s' called.
Proof.
  intros [Hnone Hzero] Hproc Hagain. unfold AsyncOperationManager.dispatch.
  destruct (AsyncOperationManager.queue s) as [|operation rest] eqn:Hqueue.
  - intros [= <- <-]. split_and!; [|done|by rewrite Hqueue|by left].
    by apply aom_idle_invariant.
  - case_decide as Hroom.
    + destruct (throws_at_call operation); intros [= <- <-].
      * split_and!; [|done|by rewrite Hqueue|].
        -- apply aom_idle_invariant. split; cbn; [done | lia].
        -- right. exists operation. split; [done|]. by right.
      * split_and!; [|done|by rewrite Hqueue|].
        -- unfold AsyncOperationManager.invariant. cbn. rewrite Hnone, Hzero.
           cbn. split_and!; [done | lia |]. intros _. split; [done | lia].
        -- right. exists operation. split; [done|]. left. cbn.
           by rewrite Hnone.
    + intros Hres. apply Hagain in Hres; [|done].
      destruct Hres as (Hinv & Hlimit & Hfifo & Hcalled).
      cbn in Hinv, Hlimit, Hfifo, Hcalled.
      split_and!; [done..| |done]. by rewrite Hqueue.
Qed.

Lemma aom_processQueue_post depth s s' called :
  AsyncOperationManager.invariant s ->
  processQueue depth s = Some (s', called) ->
  AsyncOperationManager.post s s' called.
Proof.
  revert s s' called. induction depth as [|depth IH]; intros s s' called Hinv;
    [done|].
  cbn [AsyncOperationManager.processQueue].
  destruct (AsyncOperationManager.isProcessing s) eqn:Hproc.
  - intros [= <- <-]. split_and!; [done..|]. by left.
  - assert (AsyncOperationManager.idle s) as [Hnone Hzero].
    { destruct Hinv as (Hcount & _ & Hbusy).
      destruct (AsyncOperationManager.awaiting s) as [|x l] eqn:Hnone.
      - split; [done|]. by rewrite Hcount.
      - destruct Hbusy as [Hbusy _]; [done|]. congruence. }
    intros Hres. apply aom_dispatch_post in Hres; [done|done|done|].
    intros s1 [s2 called2] Hidle Hres1.
    by apply IH; [apply aom_idle_invariant|].
Qed.

Lemma aom_remove_one_singleton (operation : Op) (l : list Op) :
  operation ∈ l -> (length l <= 1)%nat ->
  l = [operation] /\ AsyncOperationManager.remove_one operation l = [].
Proof.
  destruct l as [|x [|y l]]; cbn; [by intros ?%elem_of_nil| |lia].
  intros ->%list_elem_of_singleton _. by rewrite decide_True.
Qed.

(** One event. *)
Lemma aom_step_post depth ev s s' called :
  AsyncOperationManager.invariant s ->
  step depth ev s = Some (s', called) ->
  AsyncOperationManager.invariant s'
  /\ AsyncOperationManager.concurrentLimit s'
     = AsyncOperationManager.concurrentLimit s
  /\ called ++ AsyncOperationManager.queue s'
     = AsyncOperationManager.queue s
       ++ AsyncOperationManager.added [ev]
  /\ (called = []
      \/ exists operation,
           called = [operation]
           /\ (AsyncOperationManager.awaiting s' = [operation]
               \/ AsyncOperationManager.awaiting s' = [])).
Proof.
  intros Hinv. destruct ev as [operation|operation|operation];
    cbn [AsyncOperationManager.step AsyncOperationManager.added omap].
  - unfold AsyncOperationManager.add. intros Hres.
    apply aom_processQueue_post in Hres; [done|]. apply Hinv.
  - unfold AsyncOperationManager.settle. case_decide as Hin; [|done].
    destruct Hinv as (Hcount & Hone & Hbusy).
    destruct (aom_remove_one_singleton operation _ Hin Hone) as [Hl Hrm].
    destruct Hbusy as [Hproc Hlimit]; [by rewrite Hl|].
    intros Hres. apply aom_dispatch_post in Hres.
    + destruct Hres as (Hinv' & Hlimit' & Hfifo & Hcalled).
      split_and!; [done..| |done]. by rewrite app_nil_r.
    + split; cbn; [done|]. rewrite Hcount, Hl. cbn. lia.
    + done.
    + intros s1 [s2 called2] Hidle Hres1.
      by apply (aom_processQueue_post depth); [apply aom_idle_invariant|].
  - unfold AsyncOperationManager.settle. case_decide as Hin; [|done].
    destruct Hinv as (Hcount & Hone & Hbusy).
    destruct (aom_remove_one_singleton operation _ Hin Hone) as [Hl Hrm].
    intros [= <- <-]. split_and!; [|done|by rewrite app_nil_r|by left].
    apply aom_idle_invariant. split; cbn; [done|].
    rewrite Hcount, Hl. cbn. lia.
Qed.

(** Every state a new manager gets to. *)
Lemma aom_reaches_post limit evs s called :
  reaches (AsyncOperationManager.constructor limit) evs s called ->
  AsyncOperationManager.invariant s
  /\ AsyncOperationManager.concurrentLimit s = limit
  /\ called ++ AsyncOperationManager.queue s = AsyncOperationManager.added evs.
Proof.
  induction 1 as [|evs s called depth ev s' called' _ IH Hstep].
  - split_and!; [|done..]. by apply aom_idle_invariant.
  - destruct IH as (Hinv & Hlimit & Hfifo).
    destruct (aom_step_post depth ev s s' called' Hinv Hstep)
      as (Hinv' & Hlimit' & Hfifo' & _).
    split_and!; [done|congruence|].
    unfold AsyncOperationManager.added in *.
    rewrite omap_app, <- Hfifo, <- !app_assoc. by rewrite Hfifo'.
Qed.

Lemma aom_reaches_cons depth ev s0 s1 called1 evs s called :
  step depth ev s0 = Some (s1, called1) ->
  reaches s1 evs s called -> reaches s0 (ev :: evs) s (called1 ++ called).
Proof.
  intros Hstep. induction 1 as [|evs s called depth' ev' s' called' _ IH Hstep'].
  - rewrite app_nil_r.
    apply (AsyncOperationManager.reaches_snoc _ _ [] s0 [] depth ev);
      [constructor | done].
  - rewrite app_assoc.
    by apply (AsyncOperationManager.reaches_snoc _ _ (ev :: evs) s
                (called1 ++ called) depth' ev').
Qed.

Lemma aom_run_reaches depth evs s0 s called :
  run depth evs s0 = Some (s, called) -> reaches s0 evs s called.
Proof.
  revert s0 s called. induction evs as [|ev evs IH]; intros s0 s called.
  - intros [= <- <-]. constructor.
  - cbn [AsyncOperationManager.run].
    destruct (step depth ev s0) as [[s1 called1]|] eqn:Hstep; [|done].
    destruct (run depth evs s1) as [[s2 called2]|] eqn:Hrun; [|done].
    intros [= <- <-]. eapply aom_reaches_cons; [done|]. by apply IH.
Qed.

(** With a limit of at least 1 every event that can happen is carried
    out, and the recursion of [processQueue] has depth 1. *)
Lemma aom_step_defined ev s :
  1 <= AsyncOperationManager.concurrentLimit s ->
  AsyncOperationManager.invariant s ->
  AsyncOperationManager.enabled ev s ->
  is_Some (step 1 ev s).
Proof.
  intros Hlimit (Hcount & Hone & Hbusy) Hen.
  destruct ev as [operation|operation|operation];
    cbn [AsyncOperationManager.step AsyncOperationManager.enabled] in *.
  - unfold AsyncOperationManager.add. cbn.
    destruct (AsyncOperationManager.isProcessing s) eqn:Hproc; [done|].
    assert (AsyncOperationManager.activeCount s = 0) as Hzero.
    { destruct (AsyncOperationManager.awaiting s) eqn:Hnone;
        [by rewrite Hcount|].
      destruct Hbusy as [? _]; [done | congruence]. }
    unfold AsyncOperationManager.dispatch. cbn.
    destruct (AsyncOperationManager.queue s ++ [operation]) eqn:Hq.
    { by destruct (AsyncOperationManager.queue s). }
    rewrite decide_True by lia. by destruct (throws_at_call _).
  - unfold AsyncOperationManager.settle. rewrite decide_True by done.
    destruct (aom_remove_one_singleton operation _ Hen Hone) as [Hl Hrm].
    unfold AsyncOperationManager.dispatch. cbn.
    destruct (AsyncOperationManager.queue s); [done|].
    rewrite decide_True by (rewrite Hcount, Hl; cbn; lia).
    by destruct (throws_at_call _).
  - unfold AsyncOperationManager.settle. by rewrite decide_True.
Qed.

(** With a limit of 0 or less, [add] on a manager at rest makes
    [processQueue] call itself at every depth: the bound is always
    reached. *)
Lemma aom_add_without_limit_reaches_bound depth operation s :
  AsyncOperationManager.concurrentLimit s <= 0 ->
  AsyncOperationManager.isProcessing s = false ->
  0 <= AsyncOperationManager.activeCount s ->
  AsyncOperationManager.add throws_at_call depth operation s = None.
Proof.
  intros Hlimit Hproc Hcount. unfold AsyncOperationManager.add.
  set (s1 := AsyncOperationManager.mk _ _ _ _ _).
  assert (AsyncOperationManager.queue s1 ≠ []) as Hq
    by (cbn; by destruct (AsyncOperationManager.queue s)).
  assert (AsyncOperationManager.concurrentLimit s1
          <= AsyncOperationManager.activeCount s1) as Hfull by (cbn; lia).
  assert (AsyncOperationManager.isProcessing s1 = false) as Hproc1 by done.
  clearbody s1. clear s Hlimit Hproc Hcount.
  revert s1 Hq Hfull Hproc1. induction depth as [|depth IH]; intros s Hq Hfull Hproc;
    [done|].
  cbn [AsyncOperationManager.processQueue]. rewrite Hproc.
  unfold AsyncOperationManager.dispatch. cbn.
  destruct (AsyncOperationManager.queue s) as [|x rest] eqn:Hqueue; [done|].
  rewrite decide_False by lia. apply IH; cbn; [done | lia | done].
Qed.

(** C8. On a manager built with a limit that is not negative, after any
    sequence of calls of [add] and of settled promises, the operations
    that were called and whose promise is not settled yet are no more
    than the limit, and the operations called so far, followed by those
    still in the queue, are the operations given to [add], in the order
    in which they were given: no operation is called before one that was
    added earlier. *)
Theorem aom_bounded_and_fifo (limit : Z)
    (evs : list (AsyncOperationManager.event Op))
    (s : AsyncOperationManager.t Op) (called : list Op) :
  0 <= limit ->
  reaches (AsyncOperationManager.constructor limit) evs s called ->
  Z.of_nat (length (AsyncOperationManager.awaiting s)) <= limit
  /\ called ++ AsyncOperationManager.queue s = AsyncOperationManager.added evs.
Proof.
  intros Hlimit Hreach.
  destruct (aom_reaches_post limit evs s called Hreach)
    as ((Hcount & Hone & Hbusy) & Hlim & Hfifo).
  split; [|done].
  destruct (AsyncOperationManager.awaiting s) as [|x l] eqn:Hl; [cbn; lia|].
  destruct Hbusy as [_ Hpos]; [done|]. cbn in *. lia.
Qed.

(** C10. Whatever the limit a manager is built with, after any sequence
    of calls of [add] and of settled promises at most one operation has
    been called without its promise being settled, [activeCount] is the
    number of these operations and so never exceeds 1, and an event that
    calls an operation does so when no other operation is awaited. *)
Theorem aom_one_at_a_time (limit : Z)
    (evs : list (AsyncOperationManager.event Op))
    (s : AsyncOperationManager.t Op) (called : list Op) :
  reaches (AsyncOperationManager.constructor limit) evs s called ->
  AsyncOperationManager.activeCount s <= 1
  /\ (length (AsyncOperationManager.awaiting s) <= 1)%nat
  /\ AsyncOperationManager.activeCount s
     = Z.of_nat (length (AsyncOperationManager.awaiting s))
  /\ (forall depth ev s' called',
        step depth ev s = Some (s', called') ->
        (length called' <= 1)%nat
        /\ (called' ≠ [] ->
            AsyncOperationManager.awaiting s' = called'
            \/ AsyncOperationManager.awaiting s' = [])).
Proof.
  intros Hreach.
  destruct (aom_reaches_post limit evs s called Hreach)
    as (Hinv & Hlim & Hfifo).
  pose proof Hinv as (Hcount & Hone & Hbusy).
  split_and!; [lia | done | done |].
  intros depth ev s' called' Hstep.
  destruct (aom_step_post depth ev s s' called' Hinv Hstep)
    as (_ & _ & _ & [->|(operation & -> & Hawait)]).
  - split; [cbn; lia | done].
  - split; [cbn; lia|]. intros _.
    destruct Hawait as [->| ->]; [by left | by right].
Qed.
End AsyncOperationManagerFacts.

Lemma aom_bounded_and_fifo_witness :
  let s := AsyncOperationManager.mk [3%nat] true 2 1 [2%nat] in
  Z.of_nat (length (AsyncOperationManager.awaiting s)) <= 2
  /\ [1%nat; 2%nat] ++ AsyncOperationManager.queue s
     = AsyncOperationManager.added
         [AsyncOperationManager.Add 1%nat; AsyncOperationManager.Add 2%nat;
          AsyncOperationManager.Add 3%nat; AsyncOperationManager.Resolve 1%nat].
Proof.
  apply (aom_bounded_and_fifo (fun _ => false) 2); [lia|].
  apply (aom_run_reaches (fun _ => false) 1). reflexivity.
Defined.

Lemma aom_one_at_a_time_witness :
  let s := AsyncOperationManager.mk [3%nat] true 5 1 [2%nat] in
  AsyncOperationManager.activeCount s <= 1
  /\ (length (AsyncOperationManager.awaiting s) <= 1)%nat
  /\ AsyncOperationManager.activeCount s
     = Z.of_nat (length (AsyncOperationManager.awaiting s))
  /\ (forall depth ev s' called',
        AsyncOperationManager.step (fun _ => false) depth ev s
        = Some (s', called') ->
        (length called' <= 1)%nat
        /\ (called' ≠ [] ->
            AsyncOperationManager.awaiting s' = called'
            \/ AsyncOperationManager.awaiting s' = [])).
Proof.
  apply (aom_one_at_a_time (fun _ => false) 5
           [AsyncOperationManager.Add 1%nat; AsyncOperationManager.Add 2%nat;
            AsyncOperationManager.Add 3%nat; AsyncOperationManager.Resolve 1%nat]
           _ [1%nat; 2%nat]).
  apply (aom_run_reaches (fun _ => false) 1). reflexivity.
Defined.

(** ** Part III: further properties of the same code *)

(** *** [LRUCache]: contents *)

Section LRUCacheContents.
Context {K V : Type} `{EqDecision K}.
Implicit Types (c : LRUCache.t K V) (key k : K) (value : option V).

Lemma jsmap_get_replace {A : Type} key k (v : A) (m : list (K * A)) :
  JsMap.get k (JsMap.replace key v m)
  = if decide (k = key) then (fun _ => v) <$> JsMap.get key m
    else JsMap.get k m.
Proof.
  induction m as [|[k0 v0] m IH]; cbn.
  - by case_decide.
  - destruct (decide (k0 = key)) as [->|Hne]; cbn.
    + destruct (decide (key = k)) as [->|Hk].
      * by rewrite decide_True.
      * by rewrite decide_False by congruence.
    + rewrite IH. destruct (decide (k0 = k)) as [->|Hk]; [|done].
      by rewrite decide_False.
Qed.

Lemma jsmap_get_app {A : Type} k (m1 m2 : list (K * A)) :
  JsMap.get k (m1 ++ m2)
  = match JsMap.get k m1 with Some v => Some v | None => JsMap.get k m2 end.
Proof.
  induction m1 as [|[k0 v0] m1 IH]; cbn; [done|]. by case_decide.
Qed.

Lemma jsmap_get_set {A : Type} key k (v : A) (m : list (K * A)) :
  JsMap.get k (JsMap.set key v m)
  = if decide (k = key) then Some v else JsMap.get k m.
Proof.
  unfold JsMap.set. destruct (JsMap.get key m) as [v0|] eqn:Hget.
  - rewrite jsmap_get_replace, Hget. by case_decide.
  - rewrite jsmap_get_app. cbn. destruct (decide (k = key)) as [->|Hne].
    + by rewrite Hget, decide_True.
    + rewrite decide_False by congruence. by destruct (JsMap.get k m).
Qed.

Lemma jsmap_get_delete {A : Type} key k (m : list (K * A)) :
  NoDup (JsMap.keys m) ->
  JsMap.get k (JsMap.delete key m)
  = if decide (k = key) then None else JsMap.get k m.
Proof.
  induction m as [|[k0 v0] m IH]; cbn.
  - by case_decide.
  - rewrite jsmap_keys_cons. intros [Hk0 Hnd]%NoDup_cons.
    destruct (decide (k0 = key)) as [->|Hne].
    + destruct (decide (k = key)) as [->|Hk].
      * by apply jsmap_get_None.
      * by rewrite decide_False by congruence.
    + cbn. rewrite IH by done. destruct (decide (k0 = k)) as [->|Hk]; [|done].
      by rewrite decide_False.
Qed.

(** X1. What [set] stores under a key, [get] returns for this key right
    after, whatever the capacity and the state of the cache. *)
Theorem lru_get_after_set c key (v : V) :
  (LRUCache.get key (LRUCache.set key (Some v) c)).1 = Some v.
Proof.
  unfold LRUCache.get. cbn [LRUCache.set LRUCache.cache].
  rewrite jsmap_get_set. by rewrite decide_True.
Qed.

(** X2. [get] only changes the order of the entries: after it, every key
    is bound to what it was bound to before, and the size is the same. *)
Theorem lru_get_keeps_contents c key k :
  LRUCache.wf c ->
  JsMap.get k (LRUCache.cache (LRUCache.get key c).2)
  = JsMap.get k (LRUCache.cache c)
  /\ JsMap.size (LRUCache.cache (LRUCache.get key c).2)
     = JsMap.size (LRUCache.cache c).
Proof.
  intros Hwf. unfold LRUCache.get.
  destruct (JsMap.get key (LRUCache.cache c)) as [[v|]|] eqn:Hget;
    cbn [snd LRUCache.cache]; [|done..].
  split.
  - rewrite jsmap_get_set, jsmap_get_delete by done.
    destruct (decide (k = key)) as [->|Hne]; [by rewrite Hget | done].
  - pose proof (jsmap_get_Some _ _ _ Hget) as Hin.
    unfold JsMap.size. f_equal.
    rewrite <- !jsmap_keys_length, jsmap_set_keys.
    rewrite jsmap_delete_keys by done.
    rewrite decide_False by (rewrite list_elem_of_filter; tauto).
    rewrite length_app. cbn.
    unfold LRUCache.wf in Hwf.
    apply list_elem_of_split in Hin as (l1 & l2 & Hl). rewrite Hl in *.
    apply NoDup_app in Hwf as (_ & Hl1 & [Hl2 _]%NoDup_cons).
    rewrite filter_app, filter_cons_False by (intros Hc; by apply Hc).
    rewrite !filter_ne_absent; [|done|].
    + rewrite !length_app. cbn. lia.
    + intros Hk. apply (Hl1 key Hk). left.
Qed.

(** X3. [set] drops at most the first entry of the iteration order: a
    key other than the one set stays bound to its value when the cache
    is below its capacity, and also at capacity unless it is the first
    key. *)
Theorem lru_set_keeps_other_entries c key value k :
  k ≠ key ->
  JsMap.size (LRUCache.cache c) < LRUCache.maxSize c
  \/ JsMap.first_key (LRUCache.cache c) ≠ Some k ->
  JsMap.get k (LRUCache.cache (LRUCache.set key value c))
  = JsMap.get k (LRUCache.cache c).
Proof.
  intros Hne Hkeep. cbn [LRUCache.set LRUCache.cache].
  rewrite jsmap_get_set, decide_False by done.
  destruct (decide (LRUCache.maxSize c <= JsMap.size (LRUCache.cache c)))
    as [Hfull|Hroom].
  - rewrite lru_evict_full by done. destruct Hkeep as [Hlt|Hfirst]; [lia|].
    destruct (LRUCache.cache c) as [|[k0 v0] m]; [done|].
    cbn. rewrite decide_False; [done|].
    intros ->. by apply Hfirst.
  - by rewrite lru_evict_room by lia.
Qed.

Lemma lru_set_without_capacity c key value :
  LRUCache.maxSize c <= 0 ->
  (length (LRUCache.cache c) <= 1)%nat ->
  LRUCache.cache (LRUCache.set key value c) = [(key, value)].
Proof.
  intros Hmax Hlen. cbn [LRUCache.set LRUCache.cache].
  rewrite lru_evict_full by (unfold JsMap.size; lia).
  destruct (LRUCache.cache c) as [|e [|e' m]]; cbn in *; [done..|lia].
Qed.

(** X4. A cache built with a capacity of 0 or less still keeps one
    entry: after every call it holds at most one entry, and after a
    [set] it holds exactly the entry just set. *)
Theorem lru_capacity_zero_keeps_one (maxSize : Z)
    (ops : list (LRUCache.call K V)) :
  maxSize <= 0 ->
  Forall (fun c => (length (LRUCache.cache c) <= 1)%nat
                   /\ forall key value,
                        LRUCache.cache (LRUCache.set key value c)
                        = [(key, value)])
         (LRUCache.states ops (LRUCache.constructor maxSize)).
Proof.
  intros Hmax.
  assert (LRUCache.maxSize (LRUCache.constructor (K:=K) (V:=V) maxSize) <= 0
          /\ (length (LRUCache.cache
                        (LRUCache.constructor (K:=K) (V:=V) maxSize))
              <= 1)%nat) as Hc by (cbn; split; lia).
  revert Hc. generalize (LRUCache.constructor (K:=K) (V:=V) maxSize).
  induction ops as [|op ops IH]; intros c [Hm Hlen]; cbn [LRUCache.states].
  - constructor; [|done]. split; [done|]. intros key value.
    by apply lru_set_without_capacity.
  - constructor.
    + split; [done|]. intros key value. by apply lru_set_without_capacity.
    + apply IH. rewrite lru_do_call_maxSize. split; [done|].
      destruct op as [key|key value]; cbn [LRUCache.do_call].
      * pose proof (lru_get_size key c) as Hsz. unfold JsMap.size in Hsz. lia.
      * by rewrite lru_set_without_capacity.
Qed.
End LRUCacheContents.

Lemma lru_get_keeps_contents_witness :
  let c := LRUCache.mk [("A", Some 1); ("B", Some 2)] 3 in
  JsMap.get "B" (LRUCache.cache (LRUCache.get "A" c).2)
  = JsMap.get "B" (LRUCache.cache c)
  /\ JsMap.size (LRUCache.cache (LRUCache.get "A" c).2)
     = JsMap.size (LRUCache.cache c).
Proof.
  apply (lru_get_keeps_contents (V:=Z)).
  apply (bool_decide_unpack (NoDup ["A"; "B"])). vm_compute. exact I.
Defined.

Lemma lru_set_keeps_other_entries_witness :
  let c := LRUCache.mk [("A", Some 1); ("B", Some 2)] 2 in
  JsMap.get "B" (LRUCache.cache (LRUCache.set "C" (Some 3) c))
  = JsMap.get "B" (LRUCache.cache c).
Proof.
  apply (lru_set_keeps_other_entries (V:=Z)); [discriminate|].
  right. discriminate.
Defined.

Lemma lru_capacity_zero_keeps_one_witness :
  Forall (fun c => (length (LRUCache.cache c) <= 1)%nat
                   /\ forall key value,
                        LRUCache.cache (LRUCache.set key value c)
                        = [(key, value)])
         (LRUCache.states
            [LRUCache.Set_ "A" (Some 1); LRUCache.Set_ "B" (Some 2)]
            (LRUCache.constructor 0)).
Proof. apply (lru_capacity_zero_keeps_one (K:=string) (V:=Z) 0). reflexivity. Defined.

(** *** [Cache]: expiry *)

Section CacheExpiry.
Context {K V : Type} `{Countable K}.
Implicit Types (c : Cache.t K V) (key : K).

(** X5. Once [get] has found nothing under a key, it finds nothing under
    it at any other time either, and changes the cache no more, as long
    as the key is not set again. *)
Theorem cache_get_none_is_final c key (t t' : Z) :
  (Cache.get key t c).1 = None ->
  Cache.get key t' (Cache.get key t c).2 = (None, (Cache.get key t c).2).
Proof.
  intros Hnone.
  assert (Cache.data (Cache.get key t c).2 !! key = None) as Hgone.
  { unfold Cache.get in *.
    destruct (Cache.data c !! key) as [item|] eqn:Hitem; [|done].
    case_decide; [|done]. cbn. apply lookup_delete_eq. }
  revert Hgone. generalize (Cache.get key t c).2. intros c' Hgone.
  unfold Cache.get. by rewrite Hgone.
Qed.

(** X6. What [get] returns for a key does not depend on a [set] or on a
    [get] made on another key. *)
Theorem cache_keys_are_independent c key key' (value : V) (ttl s t t' : Z) :
  key ≠ key' ->
  (Cache.get key' t (Cache.set key value ttl s c)).1 = (Cache.get key' t c).1
  /\ (Cache.get key' t' (Cache.get key t c).2).1 = (Cache.get key' t' c).1.
Proof.
  intros Hne. split.
  - unfold Cache.get, Cache.set. cbn [Cache.data].
    rewrite lookup_insert_ne by done.
    destruct (Cache.data c !! key') as [item|]; [|done]. by case_decide.
  - unfold Cache.get at 2.
    destruct (Cache.data c !! key) as [item|]; [|done].
    case_decide; [|done]. cbn [snd]. unfold Cache.get. cbn [Cache.data].
    rewrite lookup_delete_ne by done.
    destruct (Cache.data c !! key') as [item'|]; [|done]. by case_decide.
Qed.
End CacheExpiry.

Lemma cache_get_none_is_final_witness :
  let c := Cache.set "k" 7 10 0 Cache.constructor in
  Cache.get "k" 3 (Cache.get "k" 15 c).2 = (None, (Cache.get "k" 15 c).2).
Proof. apply (cache_get_none_is_final (V:=Z)). reflexivity. Defined.

Lemma cache_keys_are_independent_witness :
  let c := Cache.set "a" 1 10 0 Cache.constructor in
  (Cache.get "a" 5 (Cache.set "b" 2 10 0 c)).1 = (Cache.get "a" 5 c).1
  /\ (Cache.get "a" 7 (Cache.get "b" 5 c).2).1 = (Cache.get "a" 7 c).1.
Proof. apply (cache_keys_are_independent (V:=Z)). discriminate. Defined.

(** *** [ResourcePool]: life cycle of an item *)

Section ResourcePoolLifeCycle.
Context {T : Type} {T_eq : EqDecision T} {T_countable : Countable T}.
Context {W E : Type}.
Variable factory : W -> result E T * W.
Variable reset : T -> W -> result E unit * W.
Implicit Types (s : ResourcePool.t T) (w : W) (item : T).

Lemma pool_pop_push item (l : list T) :
  ResourcePool.pop (ResourcePool.push item l) = Some (item, l).
Proof.
  unfold ResourcePool.pop, ResourcePool.push.
  rewrite reverse_app, reverse_singleton. cbn [app].
  by rewrite reverse_involutive.
Qed.

Lemma pool_pop_Some item (l rest : list T) :
  ResourcePool.pop l = Some (item, rest) -> l = ResourcePool.push item rest.
Proof.
  unfold ResourcePool.pop, ResourcePool.push.
  destruct (reverse l) as [|x r] eqn:Hrev; [done|]. intros [= <- <-].
  rewrite <- (reverse_involutive l), Hrev. by rewrite reverse_cons.
Qed.

Lemma pool_initialize_total (n : nat) s w :
  (forall w0, exists item w', factory w0 = (Ok item, w')) ->
  exists s' w',
    ResourcePool.initialize factory n s w = (Ok s', w')
    /\ length (ResourcePool.pool s') = (length (ResourcePool.pool s) + n)%nat
    /\ ResourcePool.inUse s' = ResourcePool.inUse s
    /\ ResourcePool.initialSize s' = ResourcePool.initialSize s.
Proof.
  intros Hf. revert s w. induction n as [|n IH]; intros s w.
  - exists s, w. cbn. split_and!; [done|lia|done..].
  - cbn [ResourcePool.initialize]. destruct (Hf w) as (item & w1 & ->).
    edestruct IH as (s' & w' & -> & Hlen & Hin & Hsize).
    exists s', w'. split_and!; [done| |done..].
    rewrite Hlen. cbn. unfold ResourcePool.push. rewrite length_app. cbn. lia.
Qed.

(** X7. With a factory that does not throw, the constructor returns a
    pool of [initialSize] idle items (none for a negative size) and no
    item in use. *)
Theorem pool_constructor_builds_initial_size (initialSize : Z) w :
  (forall w0, exists item w', factory w0 = (Ok item, w')) ->
  exists s w',
    ResourcePool.constructor factory initialSize w = (Ok s, w')
    /\ length (ResourcePool.pool s) = Z.to_nat initialSize
    /\ ResourcePool.inUse s = ∅
    /\ ResourcePool.initialSize s = initialSize.
Proof.
  intros Hf. unfold ResourcePool.constructor.
  edestruct (pool_initialize_total (Z.to_nat initialSize)) as
    (s & w' & -> & Hlen & Hin & Hsize); [done|].
  by exists s, w'.
Qed.

(** X8. An item that is released is the one the next [acquire] returns,
    without a call of the factory, and the pool is then as it was before
    the release. *)
Theorem pool_release_then_acquire item s w w' :
  item ∈ ResourcePool.inUse s ->
  reset item w = (Ok (), w') ->
  exists s1,
    ResourcePool.release reset item s w = (Ok (), s1, w')
    /\ ResourcePool.acquire factory s1 w' = (Ok item, s, w').
Proof.
  intros Hin Hreset. unfold ResourcePool.release.
  rewrite decide_True by done. rewrite Hreset. eexists. split; [done|].
  unfold ResourcePool.acquire. cbn [ResourcePool.pool ResourcePool.inUse
    ResourcePool.initialSize]. rewrite pool_pop_push.
  destruct s as [pool inUse size]. cbn in *. do 2 f_equal. f_equal.
  apply set_eq. intros x. rewrite elem_of_union, elem_of_difference,
    elem_of_singleton. destruct (decide (x = item)) as [->|]; intuition congruence.
Qed.

(** X9. Releasing the idle item that [acquire] has just handed out puts
    the pool back in the state it had before the [acquire]. *)
Theorem pool_acquire_then_release item rest s w w' :
  ResourcePool.pop (ResourcePool.pool s) = Some (item, rest) ->
  item ∉ ResourcePool.inUse s ->
  reset item w = (Ok (), w') ->
  exists s1,
    ResourcePool.acquire factory s w = (Ok item, s1, w)
    /\ ResourcePool.release reset item s1 w = (Ok (), s, w').
Proof.
  intros Hpop Hout Hreset. unfold ResourcePool.acquire. rewrite Hpop.
  eexists. split; [done|]. unfold ResourcePool.release.
  cbn [ResourcePool.pool ResourcePool.inUse ResourcePool.initialSize].
  rewrite decide_True by set_solver. rewrite Hreset.
  apply pool_pop_Some in Hpop. destruct s as [pool inUse size]. cbn in *.
  subst pool. do 2 f_equal. f_equal.
  apply set_eq. intros x. rewrite elem_of_difference, elem_of_union,
    elem_of_singleton. destruct (decide (x = item)) as [->|]; intuition congruence.
Qed.

(** X10. [acquire] and [release] keep the pool consistent, whatever the
    hooks do: no item is idle twice, and no idle item is in use. *)
Theorem pool_stays_consistent item s w :
  pool_consistent s ->
  pool_consistent (ResourcePool.acquire factory s w).1.2
  /\ pool_consistent (ResourcePool.release reset item s w).1.2.
Proof.
  intros [Hnd Hdis]. split.
  - unfold ResourcePool.acquire.
    destruct (ResourcePool.pop (ResourcePool.pool s)) as [[idle rest]|]
      eqn:Hpop.
    + apply pool_pop_Some in Hpop. unfold ResourcePool.push in Hpop.
      rewrite Hpop in Hnd, Hdis.
      apply NoDup_app in Hnd as (Hrest & Hfresh & _).
      split; cbn; [done|]. intros x Hx.
      rewrite not_elem_of_union, not_elem_of_singleton. split.
      * intros ->. apply (Hfresh idle Hx). left.
      * apply Hdis. rewrite elem_of_app. by left.
    + assert (ResourcePool.pool s = []) as Hnil.
      { unfold ResourcePool.pop in Hpop.
        destruct (reverse (ResourcePool.pool s)) eqn:Hrev; [|done].
        by rewrite <- (reverse_involutive (ResourcePool.pool s)), Hrev. }
      destruct (factory w) as [[new|e] w']; cbn; [|done].
      split; cbn; rewrite Hnil; [constructor|].
      by intros x ?%elem_of_nil.
  - unfold ResourcePool.release. case_decide as Hin; [|done].
    destruct (reset item w) as [[[]|e] w']; cbn.
    + split; cbn.
      * unfold ResourcePool.push. apply NoDup_app.
        split_and!; [done| |apply NoDup_singleton].
        intros x Hx ->%list_elem_of_singleton. by apply (Hdis item).
      * unfold ResourcePool.push. intros x [Hx| ->%list_elem_of_singleton]%elem_of_app.
        -- rewrite elem_of_difference. intros [Hu _]. by apply (Hdis x).
        -- rewrite elem_of_difference, elem_of_singleton.
           intros [_ Hc]. by apply Hc.
    + split; cbn; [done|]. intros x Hx.
      rewrite elem_of_difference. intros [Hu _]. by apply (Hdis x).
Qed.

(** X11. A second [release] of the same item does nothing, whether or
    not the first one found the item in use: the reset hook runs at most
    once and the item is idle at most once. *)
Theorem pool_release_twice item s w w2 :
  ResourcePool.release reset item
    (ResourcePool.release reset item s w).1.2 w2
  = (Ok (), (ResourcePool.release reset item s w).1.2, w2).
Proof.
  assert (item ∉ ResourcePool.inUse
                   (ResourcePool.release reset item s w).1.2) as Hout.
  { unfold ResourcePool.release. case_decide as Hin; [|done].
    destruct (reset item w) as [[[]|e] w']; cbn;
      rewrite elem_of_difference, elem_of_singleton; intros [_ Hc];
      by apply Hc. }
  unfold ResourcePool.release at 1. by rewrite decide_False.
Qed.
End ResourcePoolLifeCycle.

Lemma pool_constructor_builds_initial_size_witness :
  exists s w',
    ResourcePool.constructor PoolExample.factory 3 0%nat = (Ok s, w')
    /\ length (ResourcePool.pool s) = Z.to_nat 3
    /\ ResourcePool.inUse s = ∅
    /\ ResourcePool.initialSize s = 3.
Proof.
  apply (pool_constructor_builds_initial_size PoolExample.factory).
  intros w0. by exists w0, (S w0).
Defined.

Lemma pool_release_then_acquire_witness :
  exists s1,
    ResourcePool.release PoolExample.reset 0%nat PoolExample.one_out 1%nat
    = (Ok (), s1, 1%nat)
    /\ ResourcePool.acquire PoolExample.factory s1 1%nat
       = (Ok 0%nat, PoolExample.one_out, 1%nat).
Proof.
  apply (pool_release_then_acquire PoolExample.factory PoolExample.reset);
    [|reflexivity].
  apply (bool_decide_unpack (0%nat ∈ ResourcePool.inUse PoolExample.one_out)).
  vm_compute. exact I.
Defined.

Lemma pool_acquire_then_release_witness :
  exists s1,
    ResourcePool.acquire PoolExample.factory PoolExample.fresh 1%nat
    = (Ok 0%nat, s1, 1%nat)
    /\ ResourcePool.release PoolExample.reset 0%nat s1 1%nat
       = (Ok (), PoolExample.fresh, 1%nat).
Proof.
  apply (pool_acquire_then_release PoolExample.factory PoolExample.reset
           0%nat []); [reflexivity| |reflexivity].
  apply (bool_decide_unpack (0%nat ∉ ResourcePool.inUse PoolExample.fresh)).
  vm_compute. exact I.
Defined.

Lemma pool_stays_consistent_witness :
  pool_consistent
    (ResourcePool.acquire PoolExample.factory PoolExample.fresh 1%nat).1.2
  /\ pool_consistent
       (ResourcePool.release PoolExample.reset 0%nat PoolExample.fresh
          1%nat).1.2.
Proof.
  apply (pool_stays_consistent PoolExample.factory PoolExample.reset).
  split.
  - apply (bool_decide_unpack (NoDup [0%nat])). vm_compute. exact I.
  - intros item Hitem. cbn. apply not_elem_of_empty.
Defined.

(** *** [retryOperation]: the first success *)

Section RetrySuccess.
Context {W E T : Type}.
Variable operation : W -> result E T * W.
Variable invocations : W -> nat.

(** The world after [k] calls of the operation. *)
Local Abbreviation after k w := (Nat.iter k (fun w0 => (operation w0).2) w).

Lemma retry_after_succ k w : after (S k) w = after k ((operation w).2).
Proof. by rewrite Nat.iter_succ_r. Qed.

(** X12. When the operation throws at its first [k] calls and returns
    at the next one, with [k <= retries], [retryOperation] returns what
    this call returns, and the world is the one after these [k + 1]
    calls: later calls are not made. *)
Theorem retry_returns_first_success (retries : Z) (k : nat) (w : W)
    (value : T) :
  (forall j, (j < k)%nat -> exists error,
     (operation (after j w)).1 = Throw error) ->
  (operation (after k w)).1 = Ok value ->
  Z.of_nat k <= retries ->
  Retry.retryOperation operation retries w
  = (Ok value, (operation (after k w)).2).
Proof.
  revert retries w. induction k as [|k IH]; intros retries w Hfail Hok Hle.
  - rewrite retry_unfold. change (after 0 w) with w in *.
    destruct (operation w) as [r w1]. cbn in Hok. by subst r.
  - rewrite retry_unfold. destruct (Hfail 0%nat) as [error Herr]; [lia|].
    change (after 0 w) with w in Herr. rewrite retry_after_succ in Hok.
    destruct (operation w) as [r w1] eqn:Hop. cbn in Herr, Hok. subst r.
    rewrite decide_True by lia.
    rewrite (IH (retries - 1) w1); [|intros j Hj|done|lia].
    + by rewrite retry_after_succ, Hop.
    + destruct (Hfail (S j)) as [e He]; [lia|]. exists e.
      by rewrite retry_after_succ, Hop in He.
Qed.

(** X13. [retryOperation] calls the operation at least once and at most
    [retries + 1] times, once for a [retries] of 0 or less. *)
Theorem retry_invocations_bounded (retries : Z) (w : W) :
  (forall w0, invocations (operation w0).2 = S (invocations w0)) ->
  (invocations w + 1
   <= invocations (Retry.retryOperation operation retries w).2
   <= invocations w + Z.to_nat retries + 1)%nat.
Proof.
  intros Hcount. remember (Z.to_nat retries) as n eqn:Hn.
  revert retries w Hn. induction n as [|n IH]; intros retries w Hn.
  - rewrite retry_unfold. pose proof (Hcount w) as Hw.
    destruct (operation w) as [[value|error] w1]; cbn in *; [lia|].
    rewrite decide_False by lia. cbn. lia.
  - rewrite retry_unfold. pose proof (Hcount w) as Hw.
    destruct (operation w) as [[value|error] w1]; cbn in *; [lia|].
    rewrite decide_True by lia.
    pose proof (IH (retries - 1) w1 ltac:(lia)). lia.
Qed.
End RetrySuccess.

Lemma retry_returns_first_success_witness :
  Retry.retryOperation FlakyExample.operation 3 0%nat = (Ok 42, 3%nat).
Proof.
  apply (retry_returns_first_success FlakyExample.operation 3 2 0%nat 42).
  - intros j Hj. exists RetryExample.boom.
    destruct j as [|[|j]]; [reflexivity | reflexivity | lia].
  - reflexivity.
  - lia.
Defined.

Lemma retry_invocations_bounded_witness :
  (0 + 1 <= (Retry.retryOperation RetryExample.failing 2 0%nat).2
   <= 0 + Z.to_nat 2 + 1)%nat.
Proof.
  apply (retry_invocations_bounded RetryExample.failing (fun w => w)).
  reflexivity.
Defined.

(** *** [NetworkOptimizer]: the cache of [fetch] *)

Section NetworkOptimizerCache.
Context {W E Data Response : Type}.
Variable Date_now : W -> Z.
Variable global_fetch : string -> Z -> W -> result E Response * W.
Variable response_ok : Response -> bool.
Variable response_status : Response -> Z.
Variable response_json : Response -> W -> result E Data * W.
Variable http_error : Z -> E.
Variable sleep : Z -> W -> W.

Local Abbreviation attempt :=
  (NetworkOptimizer.attempt Date_now global_fetch response_ok response_status
     response_json http_error).
Local Abbreviation retry_loop :=
  (NetworkOptimizer.retry_loop Date_now global_fetch response_ok
     response_status response_json http_error sleep).
Local Abbreviation fetch :=
  (NetworkOptimizer.fetch Date_now global_fetch response_ok response_status
     response_json http_error sleep).

Lemma net_attempt_cache url ttl timeout cache w :
  match (attempt url ttl timeout cache w).1.1 with
  | Ok data =>
      (attempt url ttl timeout cache w).1.2
      = <[url := {| NetworkOptimizer.data := data;
                    NetworkOptimizer.timestamp :=
                      Date_now (attempt url ttl timeout cache w).2;
                    NetworkOptimizer.ttl := ttl |}]> cache
  | Throw _ => (attempt url ttl timeout cache w).1.2 = cache
  end.
Proof.
  unfold NetworkOptimizer.attempt.
  destruct (global_fetch url timeout w) as [[response|error] w1]; [|done].
  destruct (response_ok response); [|done]. cbn.
  by destruct (response_json response w1) as [[data|error] w2].
Qed.

Lemma net_retry_loop_cache n i lastError url ttl timeout cache w :
  match (retry_loop n i lastError url ttl timeout cache w).1.1 with
  | Ok data =>
      (retry_loop n i lastError url ttl timeout cache w).1.2
      = <[url := {| NetworkOptimizer.data := data;
                    NetworkOptimizer.timestamp :=
                      Date_now
                        (retry_loop n i lastError url ttl timeout cache w).2;
                    NetworkOptimizer.ttl := ttl |}]> cache
  | Throw e =>
      (retry_loop n i lastError url ttl timeout cache w).1.2 = cache
      /\ (n = 0%nat ->
          e = lastError
          /\ (retry_loop n i lastError url ttl timeout cache w).2 = w)
      /\ (n ≠ 0%nat -> exists error, e = Some error)
  end.
Proof.
  revert i lastError w. induction n as [|n IH]; intros i lastError w.
  - cbn. by split_and!.
  - cbn [NetworkOptimizer.retry_loop].
    pose proof (net_attempt_cache url ttl timeout cache w) as Hatt.
    destruct (attempt url ttl timeout cache w) as [[[data|error] cache1] w1];
      cbn in Hatt; [done|]. subst cache1.
    specialize (IH (i + 1) (Some error)
                  (sleep (NetworkOptimizer.backoff i) w1)).
    destruct (retry_loop n (i + 1) (Some error) url ttl timeout cache
                (sleep (NetworkOptimizer.backoff i) w1)).1.1 as [data|e];
      [done|].
    destruct IH as (Hcache & Hzero & Hpos). split_and!; [done|done|].
    intros _. destruct n as [|n].
    + destruct Hzero as [-> _]; [done|]. by eexists.
    + by apply Hpos.
Qed.

(** X14. A call of [fetch] that goes to the network and returns data
    stores the data under the url, with the time of the store and the
    time to live of this call.  Any later call for the url that does not
    force a refresh, made less than this time to live after the store,
    returns the same data and leaves the world untouched: it makes no
    request, whatever its own options are. *)
Theorem net_fetch_then_cached url opts cache w data cache' w' :
  cache !! url = None \/ NetworkOptimizer.opt_forceRefresh opts = Some true ->
  fetch url opts cache w = (Ok data, cache', w') ->
  cache'
  = <[url := {| NetworkOptimizer.data := data;
                NetworkOptimizer.timestamp := Date_now w';
                NetworkOptimizer.ttl :=
                  default (5 * 60 * 1000) (NetworkOptimizer.opt_ttl opts) |}]>
      cache
  /\ forall opts2 w2,
       default false (NetworkOptimizer.opt_forceRefresh opts2) = false ->
       Date_now w2 - Date_now w'
       < default (5 * 60 * 1000) (NetworkOptimizer.opt_ttl opts) ->
       fetch url opts2 cache' w2 = (Ok data, cache', w2).
Proof.
  intros Hmiss Hfetch.
  assert (retry_loop
            (Z.to_nat (default 3 (NetworkOptimizer.opt_retries opts))) 0 None
            url (default (5 * 60 * 1000) (NetworkOptimizer.opt_ttl opts))
            (default 5000 (NetworkOptimizer.opt_timeout opts)) cache w
          = (Ok data, cache', w')) as Hloop.
  { unfold NetworkOptimizer.fetch in Hfetch.
    destruct Hmiss as [Hnone|Hforce].
    - rewrite Hnone in Hfetch.
      by destruct (default false (NetworkOptimizer.opt_forceRefresh opts)).
    - by rewrite Hforce in Hfetch. }
  pose proof (net_retry_loop_cache
                (Z.to_nat (default 3 (NetworkOptimizer.opt_retries opts))) 0
                None url
                (default (5 * 60 * 1000) (NetworkOptimizer.opt_ttl opts))
                (default 5000 (NetworkOptimizer.opt_timeout opts)) cache w)
    as Hcache.
  rewrite Hloop in Hcache. cbn in Hcache. split; [done|].
  intros opts2 w2 Hno Hfresh. unfold NetworkOptimizer.fetch.
  rewrite Hno, Hcache, lookup_insert_eq. cbn. by rewrite decide_True.
Qed.

(** X15. A call of [fetch] that throws leaves the cache as it was.  What
    it throws is [null] exactly when [retries] is 0 or less, and in this
    case no request is made and nothing is waited for. *)
Theorem net_fetch_failure_keeps_cache url opts cache w e :
  (fetch url opts cache w).1.1 = Throw e ->
  (fetch url opts cache w).1.2 = cache
  /\ (e = None <-> default 3 (NetworkOptimizer.opt_retries opts) <= 0)
  /\ (default 3 (NetworkOptimizer.opt_retries opts) <= 0 ->
      (fetch url opts cache w).2 = w).
Proof.
  set (n := Z.to_nat (default 3 (NetworkOptimizer.opt_retries opts))).
  set (ttl := default (5 * 60 * 1000) (NetworkOptimizer.opt_ttl opts)).
  set (timeout := default 5000 (NetworkOptimizer.opt_timeout opts)).
  assert ((retry_loop n 0 None url ttl timeout cache w).1.1 = Throw e ->
          (retry_loop n 0 None url ttl timeout cache w).1.2 = cache
          /\ (e = None <-> default 3 (NetworkOptimizer.opt_retries opts) <= 0)
          /\ (default 3 (NetworkOptimizer.opt_retries opts) <= 0 ->
              (retry_loop n 0 None url ttl timeout cache w).2 = w)) as Hloop.
  { intros He.
    pose proof (net_retry_loop_cache n 0 None url ttl timeout cache w) as Hc.
    rewrite He in Hc. destruct Hc as (Hcache & Hzero & Hpos).
    split_and!; [done| |].
    - split.
      + intros ->. destruct n as [|n'] eqn:Hn; [unfold n in Hn; lia|].
        destruct Hpos as [error Herror]; [done|]. done.
      + intros Hle. destruct Hzero as [-> _]; [unfold n; lia | done].
    - intros Hle. destruct Hzero as [_ ->]; [unfold n; lia | done]. }
  unfold NetworkOptimizer.fetch. fold n ttl timeout.
  destruct (default false (NetworkOptimizer.opt_forceRefresh opts)); [done|].
  destruct (cache !! url) as [hit|]; [|done].
  case_decide; [done | done].
Qed.
End NetworkOptimizerCache.

Section NetworkOptimizerRequests.
Context {W E Data Response : Type}.
Variable Date_now : W -> Z.
Variable global_fetch : string -> Z -> W -> result E Response * W.
Variable response_ok : Response -> bool.
Variable response_status : Response -> Z.
Variable response_json : Response -> W -> result E Data * W.
Variable http_error : Z -> E.
Variable sleep : Z -> W -> W.
Variable calls : W -> nat.
Variable slept : W -> list Z.
Hypothesis global_fetch_calls : forall url timeout w,
  calls (global_fetch url timeout w).2 = S (calls w).
Hypothesis global_fetch_slept : forall url timeout w,
  slept (global_fetch url timeout w).2 = slept w.
Hypothesis response_json_calls : forall r w,
  calls (response_json r w).2 = calls w.
Hypothesis response_json_slept : forall r w,
  slept (response_json r w).2 = slept w.
Hypothesis sleep_calls : forall ms w, calls (sleep ms w) = calls w.
Hypothesis sleep_slept : forall ms w, slept (sleep ms w) = slept w ++ [ms].

Local Abbreviation fetch :=
  (NetworkOptimizer.fetch Date_now global_fetch response_ok response_status
     response_json http_error sleep).

(** X16. A call of [fetch] makes at most [retries] requests (3 when the
    option is left out), and none when [retries] is 0 or less. *)
Theorem net_fetch_requests_bounded url opts cache w :
  (calls w <= calls (fetch url opts cache w).2
   <= calls w + Z.to_nat (default 3%Z (NetworkOptimizer.opt_retries opts)))%nat.
Proof.
  unfold NetworkOptimizer.fetch.
  set (n := Z.to_nat (default 3 (NetworkOptimizer.opt_retries opts))).
  set (ttl := default (5 * 60 * 1000) (NetworkOptimizer.opt_ttl opts)).
  set (timeout := default 5000 (NetworkOptimizer.opt_timeout opts)).
  destruct (net_retry_loop_seen Date_now global_fetch response_ok
              response_status response_json http_error sleep calls slept
              global_fetch_calls global_fetch_slept response_json_calls
              response_json_slept sleep_calls sleep_slept
              n 0 None url ttl timeout cache w) as (k & _ & Hres).
  assert (calls w
          <= calls (NetworkOptimizer.retry_loop Date_now global_fetch
                      response_ok response_status response_json http_error
                      sleep n 0 None url ttl timeout cache w).2
          <= calls w + n)%nat as Hloop.
  { destruct (NetworkOptimizer.retry_loop Date_now global_fetch response_ok
                response_status response_json http_error sleep n 0 None url
                ttl timeout cache w).1.1; destruct Hres as [? ->]; lia. }
  destruct (default false (NetworkOptimizer.opt_forceRefresh opts)); [done|].
  destruct (cache !! url) as [hit|]; [|done].
  case_decide; [cbn; lia | done].
Qed.
End NetworkOptimizerRequests.

Lemma net_fetch_failure_keeps_cache_witness :
  (NetExample.fetch 0).1.2 = ∅
  /\ (None (A:=JsError) = None <-> default 3 (Some 0) <= 0)
  /\ (default 3 (Some 0) <= 0 -> (NetExample.fetch 0).2 = NetExample.start).
Proof.
  apply (net_fetch_failure_keeps_cache NetExample.Date_now
           NetExample.global_fetch NetExample.response_ok
           NetExample.response_status NetExample.response_json
           NetExample.http_error NetExample.sleep). reflexivity.
Defined.

Lemma net_fetch_requests_bounded_witness :
  (NetExample.calls NetExample.start
   <= NetExample.calls (NetExample.fetch 2).2
   <= NetExample.calls NetExample.start + Z.to_nat (default 3%Z (Some 2%Z)))%nat.
Proof.
  apply (net_fetch_requests_bounded NetExample.Date_now
           NetExample.global_fetch NetExample.response_ok
           NetExample.response_status NetExample.response_json
           NetExample.http_error NetExample.sleep NetExample.calls
           NetExample.slept); reflexivity.
Defined.

Lemma net_fetch_then_cached_witness :
  NetUpExample.stored
  = <["https://example.org/users" :=
        {| NetworkOptimizer.data := "{}";
           NetworkOptimizer.timestamp :=
             NetExample.Date_now NetUpExample.after_request;
           NetworkOptimizer.ttl :=
             default (5 * 60 * 1000)
               (NetworkOptimizer.opt_ttl NetUpExample.no_options) |}]> ∅
  /\ forall opts2 w2,
       default false (NetworkOptimizer.opt_forceRefresh opts2) = false ->
       NetExample.Date_now w2 - NetExample.Date_now NetUpExample.after_request
       < default (5 * 60 * 1000)
           (NetworkOptimizer.opt_ttl NetUpExample.no_options) ->
       NetworkOptimizer.fetch NetExample.Date_now NetUpExample.global_fetch
         NetExample.response_ok NetExample.response_status
         NetExample.response_json NetExample.http_error NetExample.sleep
         "https://example.org/users" opts2 NetUpExample.stored w2
       = (Ok "{}", NetUpExample.stored, w2).
Proof.
  apply (net_fetch_then_cached NetExample.Date_now NetUpExample.global_fetch
           NetExample.response_ok NetExample.response_status
           NetExample.response_json NetExample.http_error NetExample.sleep
           "https://example.org/users" NetUpExample.no_options ∅
           NetExample.start "{}" NetUpExample.stored
           NetUpExample.after_request).
  - left. reflexivity.
  - reflexivity.
Defined.

(** *** [AsyncOperationManager]: progress *)

Section AsyncOperationManagerProgress.
Context {Op : Type} `{EqDecision Op}.
Variable throws_at_call : Op -> bool.
Implicit Types (s : AsyncOperationManager.t Op) (called : list Op).

Local Abbreviation dispatch := (AsyncOperationManager.dispatch throws_at_call).
Local Abbreviation processQueue :=
  (AsyncOperationManager.processQueue throws_at_call).
Local Abbreviation step := (AsyncOperationManager.step throws_at_call).
Local Abbreviation reaches := (AsyncOperationManager.reaches throws_at_call).

(** A manager whose flag is set while nothing is awaited stays so. *)
Lemma aom_stuck s0 evs s called :
  AsyncOperationManager.isProcessing s0 = true ->
  AsyncOperationManager.awaiting s0 = [] ->
  reaches s0 evs s called ->
  called = []
  /\ AsyncOperationManager.queue s
     = AsyncOperationManager.queue s0 ++ AsyncOperationManager.added evs
  /\ AsyncOperationManager.isProcessing s = true
  /\ AsyncOperationManager.awaiting s = [].
Proof.
  intros Hproc Hnone.
  induction 1 as [|evs s called depth ev s' called' _ IH Hstep].
  - split_and!; [done| |done..]. cbn. by rewrite app_nil_r.
  - destruct IH as (-> & Hqueue & Hproc' & Hnone').
    destruct ev as [operation|operation|operation];
      cbn [AsyncOperationManager.step] in Hstep.
    + unfold AsyncOperationManager.add in Hstep.
      destruct depth as [|depth]; [done|].
      cbn [AsyncOperationManager.processQueue
             AsyncOperationManager.isProcessing] in Hstep.
      rewrite Hproc' in Hstep. injection Hstep as <- <-.
      split_and!; [done| |done..]. cbn [AsyncOperationManager.queue].
      unfold AsyncOperationManager.added in *.
      rewrite omap_app, Hqueue. cbn. by rewrite app_assoc.
    + unfold AsyncOperationManager.settle in Hstep.
      rewrite Hnone', decide_False in Hstep by apply not_elem_of_nil. done.
    + unfold AsyncOperationManager.settle in Hstep.
      rewrite Hnone', decide_False in Hstep by apply not_elem_of_nil. done.
Qed.

(** X17. Once the promise of an operation is rejected the manager calls
    no operation any more: whatever is added afterwards stays in the
    queue. *)
Theorem aom_rejection_stops_the_queue (limit : Z)
    (evs evs' : list (AsyncOperationManager.event Op))
    (s s1 s2 : AsyncOperationManager.t Op) (called called1 called2 : list Op)
    (depth : nat) (operation : Op) :
  reaches (AsyncOperationManager.constructor limit) evs s called ->
  step depth (AsyncOperationManager.Reject operation) s = Some (s1, called1) ->
  reaches s1 evs' s2 called2 ->
  called1 = [] /\ called2 = []
  /\ AsyncOperationManager.queue s2
     = AsyncOperationManager.queue s ++ AsyncOperationManager.added evs'.
Proof.
  intros Hreach Hstep Hrest.
  destruct (aom_reaches_post throws_at_call limit evs s called Hreach)
    as ((Hcount & Hone & Hbusy) & _ & _).
  cbn [AsyncOperationManager.step] in Hstep.
  unfold AsyncOperationManager.settle in Hstep.
  case_decide as Hin; [|done]. injection Hstep as <- <-.
  destruct (aom_remove_one_singleton operation _ Hin Hone) as [Hl Hrm].
  destruct Hbusy as [Hproc _]; [by rewrite Hl|].
  apply aom_stuck in Hrest; [|exact Hproc|exact Hrm].
  destruct Hrest as (-> & Hq & _). by split_and!.
Qed.

(** X18. With a limit of at least 1, in every state a new manager gets
    to, a call of [add] and the settling of an awaited promise are
    carried out, and [processQueue] does not call itself more than
    once. *)
Theorem aom_events_are_carried_out (limit : Z)
    (evs : list (AsyncOperationManager.event Op))
    (s : AsyncOperationManager.t Op) (called : list Op)
    (ev : AsyncOperationManager.event Op) :
  1 <= limit ->
  reaches (AsyncOperationManager.constructor limit) evs s called ->
  AsyncOperationManager.enabled ev s ->
  is_Some (step 1 ev s).
Proof.
  intros Hlimit Hreach Hen.
  destruct (aom_reaches_post throws_at_call limit evs s called Hreach)
    as (Hinv & Hlim & _).
  apply aom_step_defined; [lia | done | done].
Qed.

Lemma aom_dispatch_rest again s s' called :
  AsyncOperationManager.isProcessing s = true ->
  AsyncOperationManager.activeCount s = 0 ->
  1 <= AsyncOperationManager.concurrentLimit s ->
  dispatch again s = Some (s', called) ->
  AsyncOperationManager.isProcessing s' = false ->
  AsyncOperationManager.queue s' = [].
Proof.
  intros Hproc Hzero Hlimit. unfold AsyncOperationManager.dispatch.
  destruct (AsyncOperationManager.queue s) as [|operation rest] eqn:Hqueue.
  - by intros [= <- <-].
  - rewrite decide_True by lia.
    destruct (throws_at_call operation); intros [= <- <-]; cbn; congruence.
Qed.

(** X20. With a limit of at least 1 a manager is never at rest with
    operations in its queue: in every state it gets to, the queue is
    empty whenever [isProcessing] is not set. *)
Theorem aom_rest_means_empty_queue (limit : Z)
    (evs : list (AsyncOperationManager.event Op))
    (s : AsyncOperationManager.t Op) (called : list Op) :
  1 <= limit ->
  reaches (AsyncOperationManager.constructor limit) evs s called ->
  AsyncOperationManager.isProcessing s = false ->
  AsyncOperationManager.queue s = [].
Proof.
  intros Hlimit Hreach.
  destruct Hreach as [|evs s called depth ev s' called' Hreach Hstep];
    [done|].
  destruct (aom_reaches_post throws_at_call limit evs s called Hreach)
    as ((Hcount & Hone & Hbusy) & Hlim & _).
  intros Hrest.
  destruct ev as [operation|operation|operation];
    cbn [AsyncOperationManager.step] in Hstep.
  - unfold AsyncOperationManager.add in Hstep.
    destruct depth as [|depth]; [done|].
    cbn [AsyncOperationManager.processQueue
           AsyncOperationManager.isProcessing] in Hstep.
    destruct (AsyncOperationManager.isProcessing s) eqn:Hproc.
    + injection Hstep as <- <-. cbn in Hrest. congruence.
    + eapply aom_dispatch_rest; [| | |exact Hstep|exact Hrest];
        cbn; [done| |lia].
      destruct (AsyncOperationManager.awaiting s) eqn:Hnone;
        [by rewrite Hcount|].
      destruct Hbusy as [? _]; [done | congruence].
  - unfold AsyncOperationManager.settle in Hstep.
    case_decide as Hin; [|done].
    destruct (aom_remove_one_singleton operation _ Hin Hone) as [Hl Hrm].
    destruct Hbusy as [Hproc _]; [by rewrite Hl|].
    eapply aom_dispatch_rest; [| | |exact Hstep|exact Hrest];
      cbn; [done| |lia].
    rewrite Hcount, Hl. cbn. lia.
  - unfold AsyncOperationManager.settle in Hstep.
    case_decide as Hin; [|done]. injection Hstep as <- <-.
    destruct (aom_remove_one_singleton operation _ Hin Hone) as [Hl Hrm].
    destruct Hbusy as [Hproc _]; [by rewrite Hl|]. cbn in Hrest. congruence.
Qed.
End AsyncOperationManagerProgress.

Lemma aom_rejection_stops_the_queue_witness :
  @nil nat = [] /\ @nil nat = []
  /\ AsyncOperationManager.queue
       (AsyncOperationManager.mk [2%nat; 3%nat] true 2 0 [])
     = AsyncOperationManager.queue
         (AsyncOperationManager.mk [2%nat] true 2 1 [1%nat])
       ++ AsyncOperationManager.added [AsyncOperationManager.Add 3%nat].
Proof.
  apply (aom_rejection_stops_the_queue (fun _ => false) 2
           [AsyncOperationManager.Add 1%nat; AsyncOperationManager.Add 2%nat]
           [AsyncOperationManager.Add 3%nat]
           (AsyncOperationManager.mk [2%nat] true 2 1 [1%nat])
           (AsyncOperationManager.mk [2%nat] true 2 0 [])
           _ [1%nat] [] [] 1 1%nat).
  - apply (aom_run_reaches (fun _ => false) 1). reflexivity.
  - reflexivity.
  - apply (aom_run_reaches (fun _ => false) 1). reflexivity.
Defined.

Lemma aom_events_are_carried_out_witness :
  is_Some (AsyncOperationManager.step (fun _ => false) 1
             (AsyncOperationManager.Resolve 1%nat)
             (AsyncOperationManager.mk [2%nat] true 2 1 [1%nat])).
Proof.
  apply (aom_events_are_carried_out (fun _ => false) 2
           [AsyncOperationManager.Add 1%nat; AsyncOperationManager.Add 2%nat]
           _ [1%nat]); [lia| |].
  - apply (aom_run_reaches (fun _ => false) 1). reflexivity.
  - apply (bool_decide_unpack (1%nat ∈ [1%nat])). vm_compute. exact I.
Defined.

Lemma aom_rest_means_empty_queue_witness :
  AsyncOperationManager.queue
    (AsyncOperationManager.mk (@nil nat) false 2 0 []) = [].
Proof.
  apply (aom_rest_means_empty_queue (fun _ => false) 2
           [AsyncOperationManager.Add 1%nat;
            AsyncOperationManager.Resolve 1%nat] _ [1%nat]); [lia| |done].
  apply (aom_run_reaches (fun _ => false) 1). reflexivity.
Defined.

(** *** [processItems] *)

Lemma process_items_foldl (acc items : list Z) :
  foldl ProcessItems.step acc items
  = acc ++ ProcessItems.processItems_chained items.
Proof.
  revert acc. induction items as [|x items IH]; intros acc.
  - cbn. by rewrite app_nil_r.
  - cbn [foldl]. rewrite IH. unfold ProcessItems.step,
      ProcessItems.processItems_chained.
    destruct (decide (0 < x)) as [Hpos|Hneg].
    + rewrite (filter_cons_True (fun x => 0 < x)) by done.
      rewrite fmap_cons. cbn zeta.
      destruct (decide (x * 2 < 100)) as [Hlt|Hge].
      * rewrite (filter_cons_True (fun x => x < 100)) by done.
        by rewrite <- app_assoc.
      * by rewrite (filter_cons_False (fun x => x < 100)) by done.
    + by rewrite (filter_cons_False (fun x => 0 < x)) by done.
Qed.

(** X21. The single pass version of [processItems] returns the same
    array as the version that filters, maps and filters again, for
    every array of integers. *)
Theorem process_items_versions_agree (items : list Z) :
  ProcessItems.processItems_reduce items
  = ProcessItems.processItems_chained items.
Proof. apply (process_items_foldl [] items). Qed.

(** *** [BatchProcessor] *)

Section BatchProcessorFacts.
Context {Item : Type}.
Implicit Types (s : BatchProcessor.t Item).

(** What holds of a processor: the timer [timeout] refers to is the only
    one pending, and there is one exactly when items wait. *)
Lemma batch_processor_invariant evs s batches :
  BatchProcessor.reaches evs s batches ->
  BatchProcessor.pending s
  = match BatchProcessor.timeout s with Some t => [t] | None => [] end
  /\ (BatchProcessor.timeout s = None <-> BatchProcessor.batch s = [])
  /\ Forall (fun items => items ≠ []) batches
  /\ concat batches ++ BatchProcessor.batch s = BatchProcessor.added evs.
Proof.
  induction 1 as [|evs s batches ev s' batches' _ IH Hstep].
  - by split_and!.
  - destruct IH as (Hpending & Hnone & Hbatches & Hall).
    destruct ev as [item|timer]; cbn in Hstep.
    + injection Hstep as <- <-. rewrite app_nil_r.
      unfold BatchProcessor.add, BatchProcessor.scheduleProcess,
        BatchProcessor.added in *.
      rewrite omap_app. cbn.
      destruct (BatchProcessor.timeout s) as [t|] eqn:Htimeout; cbn.
      * split_and!; [done| |done|].
        -- split; [done|]. by intros [_ ?]%app_eq_nil.
        -- by rewrite <- Hall, app_assoc.
      * rewrite Hpending. split_and!; [done| |done|].
        -- split; [done|]. by intros [_ ?]%app_eq_nil.
        -- by rewrite <- Hall, app_assoc.
    + case_decide as Hin; [|done]. injection Hstep as <- <-.
      rewrite Hpending in Hin |- *.
      destruct (BatchProcessor.timeout s) as [t|] eqn:Htimeout;
        [|by apply elem_of_nil in Hin].
      apply list_elem_of_singleton in Hin as ->. cbn.
      rewrite decide_False by (intros Hc; by apply Hc).
      unfold BatchProcessor.added in *. rewrite omap_app. cbn.
      rewrite !app_nil_r. split_and!; [done|done| |].
      * apply Forall_app. split; [done|]. constructor; [|done].
        intros Hempty. by apply Hnone in Hempty.
      * by rewrite concat_app, <- Hall; cbn; rewrite app_nil_r.
Qed.

(** X22. No item given to [add] is lost, handed over twice or out of
    order: the batches given to [process], one after the other, followed
    by the items still waiting, are the items added, in the order of the
    calls of [add]. *)
Theorem batch_processor_keeps_every_item
    (evs : list (BatchProcessor.event Item)) s (batches : list (list Item)) :
  BatchProcessor.reaches evs s batches ->
  concat batches ++ BatchProcessor.batch s = BatchProcessor.added evs.
Proof.
  intros Hreach. apply batch_processor_invariant in Hreach.
  by destruct Hreach as (_ & _ & _ & Hall).
Qed.

(** X23. Whenever items wait in the batch exactly one timer is pending,
    the one [timeout] holds, and none is pending otherwise; and
    [process] is never called with an empty batch. *)
Theorem batch_processor_one_timer
    (evs : list (BatchProcessor.event Item)) s (batches : list (list Item)) :
  BatchProcessor.reaches evs s batches ->
  BatchProcessor.pending s
  = match BatchProcessor.timeout s with Some t => [t] | None => [] end
  /\ (BatchProcessor.timeout s = None <-> BatchProcessor.batch s = [])
  /\ Forall (fun items => items ≠ []) batches.
Proof.
  intros Hreach. apply batch_processor_invariant in Hreach.
  destruct Hreach as (? & ? & ? & _). by split_and!.
Qed.

Lemma batch_processor_reaches_three (a b c : Item) :
  BatchProcessor.reaches
    [BatchProcessor.Add a; BatchProcessor.Add b; BatchProcessor.Fire 0%nat;
     BatchProcessor.Add c]
    (BatchProcessor.mk [c] (Some 1%nat) [1%nat] 2) [[a; b]].
Proof.
  apply (BatchProcessor.reaches_snoc
           [BatchProcessor.Add a; BatchProcessor.Add b;
            BatchProcessor.Fire 0%nat]
           (BatchProcessor.mk [] None [] 1) [[a; b]] (BatchProcessor.Add c)
           _ []); [|reflexivity].
  apply (BatchProcessor.reaches_snoc
           [BatchProcessor.Add a; BatchProcessor.Add b]
           (BatchProcessor.mk [a; b] (Some 0%nat) [0%nat] 1) []
           (BatchProcessor.Fire 0%nat) _ [[a; b]]); [|reflexivity].
  apply (BatchProcessor.reaches_snoc [BatchProcessor.Add a]
           (BatchProcessor.mk [a] (Some 0%nat) [0%nat] 1) []
           (BatchProcessor.Add b) _ []); [|reflexivity].
  apply (BatchProcessor.reaches_snoc [] BatchProcessor.constructor []
           (BatchProcessor.Add a) _ []); [|reflexivity].
  constructor.
Qed.
End BatchProcessorFacts.

Lemma batch_processor_keeps_every_item_witness :
  concat [[1; 2]] ++ BatchProcessor.batch (BatchProcessor.mk [3] (Some 1%nat) [1%nat] 2)
  = BatchProcessor.added
      [BatchProcessor.Add 1; BatchProcessor.Add 2; BatchProcessor.Fire 0%nat;
       BatchProcessor.Add 3].
Proof.
  apply batch_processor_keeps_every_item, batch_processor_reaches_three.
Defined.

Lemma batch_processor_one_timer_witness :
  let s := BatchProcessor.mk [3] (Some 1%nat) [1%nat] 2 in
  BatchProcessor.pending s
  = match BatchProcessor.timeout s with Some t => [t] | None => [] end
  /\ (BatchProcessor.timeout s = None <-> BatchProcessor.batch s = [])
  /\ Forall (fun items => items ≠ []) [[1; 2]].
Proof.
  apply (batch_processor_one_timer
           [BatchProcessor.Add 1; BatchProcessor.Add 2;
            BatchProcessor.Fire 0%nat; BatchProcessor.Add 3]).
  apply batch_processor_reaches_three.
Defined.

(** *** [EventEmitterWithCleanup] *)

Section EventEmitterFacts.
Context {Handler : Type} `{EqDecision Handler}.
Implicit Types (s : gmap string (list Handler)) (handler : Handler).

Lemma emitter_set_add_tidy handler (handlers : list Handler) :
  NoDup handlers ->
  EventEmitterWithCleanup.set_add handler handlers ≠ []
  /\ NoDup (EventEmitterWithCleanup.set_add handler handlers).
Proof.
  intros Hnd. unfold EventEmitterWithCleanup.set_add.
  case_decide as Hin.
  - split; [|done]. intros ->. by apply elem_of_nil in Hin.
  - split; [by intros [_ ?]%app_eq_nil|].
    apply NoDup_app. split_and!; [done| |apply NoDup_singleton].
    by intros x Hx ->%list_elem_of_singleton.
Qed.

Lemma emitter_on_tidy event handler s :
  EventEmitterWithCleanup.tidy s ->
  EventEmitterWithCleanup.tidy (EventEmitterWithCleanup.on event handler s).
Proof.
  intros Htidy event' handlers. unfold EventEmitterWithCleanup.on.
  destruct (decide (event = event')) as [<-|Hne].
  - rewrite lookup_insert_eq. intros [= <-].
    apply emitter_set_add_tidy.
    destruct (s !! event) as [l|] eqn:Hl; cbn; [|constructor].
    by apply (Htidy event l).
  - rewrite lookup_insert_ne by done. apply Htidy.
Qed.

Lemma emitter_off_tidy event handler s :
  EventEmitterWithCleanup.tidy s ->
  EventEmitterWithCleanup.tidy (EventEmitterWithCleanup.off event handler s).
Proof.
  intros Htidy event' handlers. unfold EventEmitterWithCleanup.off.
  destruct (s !! event) as [l|] eqn:Hl; [|apply Htidy].
  case_decide as Hempty.
  - destruct (decide (event = event')) as [<-|Hne].
    + by rewrite lookup_delete_eq.
    + rewrite lookup_delete_ne by done. apply Htidy.
  - destruct (decide (event = event')) as [<-|Hne].
    + rewrite lookup_insert_eq. intros [= <-]. split.
      * intros Hnil. by rewrite Hnil in Hempty.
      * apply NoDup_filter. by apply (Htidy event l).
    + rewrite lookup_insert_ne by done. apply Htidy.
Qed.

(** X24. After any sequence of calls of [on] and [off] on a new emitter
    every event that is in the map has at least one handler, and has no
    handler twice: [off] leaves no empty set behind. *)
Theorem emitter_keeps_no_empty_set
    (calls : list (EventEmitterWithCleanup.call Handler)) :
  EventEmitterWithCleanup.tidy (EventEmitterWithCleanup.run calls).
Proof.
  unfold EventEmitterWithCleanup.run.
  assert (EventEmitterWithCleanup.tidy (Handler:=Handler) ∅) as Hempty
    by (intros event handlers; by rewrite lookup_empty).
  revert Hempty. generalize (∅ : gmap string (list Handler)).
  induction calls as [|c calls IH]; intros s Hs; [done|].
  cbn [foldl]. apply IH. destruct c as [event handler|event handler]; cbn.
  - by apply emitter_on_tidy.
  - by apply emitter_off_tidy.
Qed.

(** X25. Registering a handler twice is the same as registering it
    once, and [off] undoes the [on] of a handler that was not registered
    for the event: the map is the one from before. *)
Theorem emitter_on_off_round_trip event handler s :
  EventEmitterWithCleanup.tidy s ->
  handler ∉ default [] (s !! event) ->
  EventEmitterWithCleanup.on event handler
    (EventEmitterWithCleanup.on event handler s)
  = EventEmitterWithCleanup.on event handler s
  /\ EventEmitterWithCleanup.off event handler
       (EventEmitterWithCleanup.on event handler s)
     = s.
Proof.
  intros Htidy Hnew.
  set (l := default [] (s !! event)) in *.
  assert (EventEmitterWithCleanup.set_add handler l = l ++ [handler]) as Hadd
    by (unfold EventEmitterWithCleanup.set_add; by rewrite decide_False).
  assert (EventEmitterWithCleanup.set_add handler (l ++ [handler])
          = l ++ [handler]) as Hadd'.
  { unfold EventEmitterWithCleanup.set_add. rewrite decide_True; [done|].
    rewrite elem_of_app, list_elem_of_singleton. tauto. }
  assert (EventEmitterWithCleanup.set_delete handler (l ++ [handler]) = l)
    as Hdel.
  { unfold EventEmitterWithCleanup.set_delete.
    rewrite filter_app, filter_ne_absent by done.
    rewrite filter_cons_False by (intros Hc; by apply Hc).
    by rewrite filter_nil, app_nil_r. }
  unfold EventEmitterWithCleanup.on, EventEmitterWithCleanup.off.
  rewrite !lookup_insert_eq. cbn [default]. fold l. unfold id.
  rewrite Hadd, Hadd', Hdel. split.
  - by rewrite insert_insert_eq.
  - unfold l. destruct (s !! event) as [l0|] eqn:Hl; cbn [default].
    + destruct (Htidy event l0 Hl) as [Hne _].
      rewrite decide_False by (by destruct l0).
      rewrite insert_insert_eq. by apply insert_id.
    + rewrite decide_True by done. by apply delete_insert_id.
Qed.
End EventEmitterFacts.

Lemma emitter_on_off_round_trip_witness :
  let s := EventEmitterWithCleanup.run
             [EventEmitterWithCleanup.On "click" 1%nat] in
  EventEmitterWithCleanup.on "click" 2%nat
    (EventEmitterWithCleanup.on "click" 2%nat s)
  = EventEmitterWithCleanup.on "click" 2%nat s
  /\ EventEmitterWithCleanup.off "click" 2%nat
       (EventEmitterWithCleanup.on "click" 2%nat s)
     = s.
Proof.
  intros s. apply emitter_on_off_round_trip.
  - apply (emitter_on_tidy "click" 1%nat ∅). intros event handlers.
    by rewrite lookup_empty.
  - apply (bool_decide_unpack (2%nat ∉ [1%nat])). vm_compute. exact I.
Defined.

(** *** [WorkerPool] *)

Section WorkerPoolFacts.
Context {Worker Task Data Err : Type}.
Implicit Types (s : WorkerPool.t Worker Task) (task : Task).

Lemma worker_pool_loop_posts_head (n : nat) s task rest :
  WorkerPool.taskQueue s = task :: rest ->
  (length (WorkerPool.availableWorkers s) <= n)%nat ->
  WorkerPool.processQueue_loop (Data:=Data) (Err:=Err) n s
  = ({| WorkerPool.workers := WorkerPool.workers s;
        WorkerPool.taskQueue := WorkerPool.taskQueue s;
        WorkerPool.availableWorkers := [] |},
     (fun worker => WorkerPool.PostMessage worker task)
       <$> reverse (WorkerPool.availableWorkers s)).
Proof.
  revert s. induction n as [|n IH]; intros s Hqueue Hlen.
  - destruct s as [workers queue available]. cbn in *.
    destruct available; [done | cbn in Hlen; lia].
  - cbn [WorkerPool.processQueue_loop].
    destruct (ResourcePool.pop (WorkerPool.availableWorkers s))
      as [[worker others]|] eqn:Hpop.
    + apply pool_pop_Some in Hpop. unfold ResourcePool.push in Hpop.
      rewrite Hqueue. rewrite IH; cbn; [|done|].
      * by rewrite Hpop, reverse_app, reverse_singleton.
      * rewrite Hpop, length_app in Hlen. cbn in Hlen. lia.
    + unfold ResourcePool.pop in Hpop.
      destruct (reverse (WorkerPool.availableWorkers s)) eqn:Hrev; [|done].
      apply (f_equal reverse) in Hrev. rewrite reverse_involutive in Hrev.
      destruct s as [workers queue available]. cbn in *. by subst available.
Qed.

(** X26. [executeTask] queues the task and posts the task at the head
    of the queue to every available worker, the last one first: with a
    queue that was empty, the new task goes to all of them, and no
    worker is left available. *)
Theorem worker_pool_posts_to_every_worker task s :
  WorkerPool.executeTask (Data:=Data) (Err:=Err) task s
  = ({| WorkerPool.workers := WorkerPool.workers s;
        WorkerPool.taskQueue := WorkerPool.taskQueue s ++ [task];
        WorkerPool.availableWorkers := [] |},
     (fun worker =>
        WorkerPool.PostMessage worker
          (default task (head (WorkerPool.taskQueue s))))
       <$> reverse (WorkerPool.availableWorkers s)).
Proof.
  unfold WorkerPool.executeTask, WorkerPool.processQueue.
  cbn [WorkerPool.availableWorkers].
  destruct (WorkerPool.taskQueue s) as [|first rest] eqn:Hqueue.
  - by rewrite (worker_pool_loop_posts_head _ _ task []).
  - by rewrite (worker_pool_loop_posts_head _ _ first (rest ++ [task])).
Qed.
End WorkerPoolFacts.

(** *** [PerformanceMonitor] *)

Section PerformanceMonitorFacts.
Context {Num W E T : Type}.
Variable now : W -> Num.
Variable sub : Num -> Num -> Num.
Variable zero : Num.
Variable plus : Num -> Num -> Num.
Variable div : Num -> Num -> Num.
Variable of_length : nat -> Num.
Variable min_of : list Num -> Num.
Variable max_of : list Num -> Num.

Local Abbreviation getStats :=
  (PerformanceMonitor.getStats zero plus div of_length min_of max_of).

Lemma monitor_count label (metrics : gmap string (list Num)) :
  PerformanceMonitor.count (getStats label metrics)
  = length (default [] (metrics !! label)).
Proof.
  unfold PerformanceMonitor.getStats. by case_decide.
Qed.

End PerformanceMonitorFacts.


(** *** [Memoize] *)

Section MemoizeFacts.
Context {This Args R W E : Type}.
Variable stringify : Args -> result E string.
Variable original :
  This -> Args -> gmap string R -> W -> result E R * gmap string R * W.

Local Abbreviation memoized := (Memoize.memoized stringify original).

(** X28. When a call of a memoized method has returned a result, the
    next call whose arguments have the same JSON text returns this
    result without calling the method, on whatever receiver and in
    whatever world it is made, also when the method has called memoized
    methods on the way and these have written to the map. *)
Theorem memoize_returns_first_result (this this2 : This) (args args2 : Args)
    (cache cache' : gmap string R) (w w' w2 : W) (result : R) :
  memoized this args cache w = (Ok result, cache', w') ->
  stringify args2 = stringify args ->
  memoized this2 args2 cache' w2 = (Ok result, cache', w2).
Proof.
  unfold Memoize.memoized. intros Hcall ->.
  destruct (stringify args) as [key|e]; [|done].
  destruct (cache !! key) as [r|] eqn:Hkey.
  - injection Hcall as <- <- <-. by rewrite Hkey.
  - destruct (original this args cache w) as [[[r|e] cache1] w1]; [|done].
    injection Hcall as <- <- <-. by rewrite lookup_insert_eq.
Qed.
End MemoizeFacts.

Lemma memoize_returns_first_result_witness :
  Memoize.memoized MemoizeExample.stringify MemoizeExample.original 7%nat
    "ab" (<["ab" := 12%nat]> (<["ab" := 2%nat]> ∅)) 5%nat
  = (Ok 12%nat, <["ab" := 12%nat]> (<["ab" := 2%nat]> ∅), 5%nat).
Proof.
  apply (memoize_returns_first_result MemoizeExample.stringify
           MemoizeExample.original 0%nat 7%nat "ab" "ab" ∅
           (<["ab" := 12%nat]> (<["ab" := 2%nat]> ∅)) 0%nat 2%nat 5%nat
           12%nat); reflexivity.
Defined.
